(** * On-disk chained hash table (llvm/Support/OnDiskHashTable.h)

    A shallow embedding of the generator ([OnDiskChainedHashTableGenerator]),
    the lookup reader ([OnDiskChainedHashTable]) and the iterable reader
    ([OnDiskIterableChainedHashTable]), followed by the properties of the
    format: directory layout, alignment, growth, lookup and iteration.

    Conventions.
    - [unsigned], [uint32_t], [uint16_t] are [Z] with the wrap-around
      written out ([wrap32], [wrap16]).
    - a byte is a [Z] in [0, 256); a stream ([raw_ostream]) is the list of
      all bytes written so far, [tell] is its length.
    - a pointer into the mapped file is a [nat] offset from [Base]; a null
      pointer is [None].
    - an [assert] that fails, and a read outside the mapped bytes, is
      [None]. *)

From Stdlib Require Import ZArith Lia.
From stdpp Require Import base list sorting.

Local Open Scope Z_scope.

(** ** Machine integers and little-endian bytes *)

Definition byte := Z.

Definition wrap16 (v : Z) : Z := v mod 2 ^ 16.
Definition wrap32 (v : Z) : Z := v mod 2 ^ 32.
Definition wrap64 (v : Z) : Z := v mod 2 ^ 64.

(** Modelled from the spec: [endian::Writer<little>::write<T>]
    (EndianStream.h is not part of the sources); all multi-byte integers
    are little-endian, so a [T] of [n = sizeof(T)] bytes is written as the
    [n] low bytes of the value, least significant first. *)
Fixpoint le_bytes (n : nat) (v : Z) : list byte :=
  match n with
  | O => []
  | S n' => v mod 256 :: le_bytes n' (v / 256)
  end.

Fixpoint le_value (bs : list byte) : Z :=
  match bs with
  | [] => 0
  | b :: bs' => b + 256 * le_value bs'
  end.

(** Modelled from the spec: [raw_ostream] (raw_ostream.h is not part of
    the sources), a sink that appends and reports its offset; the stream
    is the list of the bytes written so far, prefix included. *)
Definition raw_ostream := list byte.

Definition tell (Out : raw_ostream) : Z := Z.of_nat (length Out).

Definition write (n : nat) (Out : raw_ostream) (v : Z) : raw_ostream :=
  Out ++ le_bytes n v.

(** Pointers are offsets from [Base] into the mapped bytes. *)
Definition ptr := nat.

(** Modelled from the spec: [endian::readNext<T, little, _>(p)]
    (Endian.h is not part of the sources); the little-endian value of the
    [n = sizeof(T)] bytes at [p], and [p] advanced past them. *)
Definition readNext (n : nat) (mem : list byte) (p : ptr) : option (Z * ptr) :=
  if decide (p + n ≤ length mem)%nat
  then Some (le_value (take n (drop p mem)), (p + n)%nat)
  else None.

(** Modelled from the spec: [llvm::OffsetToAlignment] (MathExtras.h is not
    part of the sources); the number of pad bytes is [(-table_off) mod 4]
    for the alignment 4 of [uint32_t]. *)
Definition OffsetToAlignment (Value Align : Z) : Z := (- Value) mod Align.

(** Modelled from the spec: [alignOf<uint32_t>()] (AlignOf.h is not part
    of the sources); the directory is 4-byte aligned. *)
Definition alignOf_uint32_t : Z := 4.

(** ** The generator *)

Module Gen.

(** The [Info] interface of the generator. The [Emit*] members return the
    bytes they append to the stream. *)
Class Info (I key_type data_type : Type) := {
  ComputeHash : I → key_type → Z;
  EmitKeyDataLength : I → key_type → data_type → list byte * (Z * Z);
  EmitKey : I → key_type → Z → list byte;
  EmitData : I → key_type → data_type → Z → list byte;
}.

Section Generator.
Context {I key_type data_type : Type} `{!Info I key_type data_type}.

(** [Item]; the [Next] pointers of a chain are the list structure. *)
Record Item := mkItem {
  Key : key_type;
  Data : data_type;
  Hash : Z;
}.

Definition newItem (K : key_type) (D : data_type) (InfoObj : I) : Item :=
  {| Key := K; Data := D; Hash := wrap32 (ComputeHash InfoObj K) |}.

Record Bucket := mkBucket {
  Off : Z;
  Head : list Item;
  Length : Z;
}.

(** Buckets has [NumBuckets] cells ([calloc (NumBuckets, sizeof Bucket)]). *)
Record Generator := mkGenerator {
  NumBuckets : Z;
  NumEntries : Z;
  Buckets : list Bucket;
}.

(** A cell as [calloc] leaves it. *)
Definition zeroBucket : Bucket := {| Off := 0; Head := []; Length := 0 |}.

Definition calloc (n : Z) : list Bucket := replicate (Z.to_nat n) zeroBucket.

(** [OnDiskChainedHashTableGenerator()] *)
Definition create : Generator :=
  {| NumBuckets := 64; NumEntries := 0; Buckets := calloc 64 |}.

Definition push (E : Item) (B : Bucket) : Bucket :=
  {| Off := Off B; Head := E :: Head B; Length := wrap32 (Length B + 1) |}.

(** [insert (Bucket *Buckets, size_t Size, Item *E)]. The index is
    computed in [size_t]; an index outside the array leaves it alone. *)
Definition insert_item (Bs : list Bucket) (Size : Z) (E : Item) : list Bucket :=
  alter (push E) (Z.to_nat (Z.land (Hash E) (wrap64 (Size - 1)))) Bs.

(** [resize (size_t NewSize)] *)
Definition resize (g : Generator) (NewSize : Z) : Generator :=
  let NewBuckets :=
    foldl (λ NBs B, foldl (λ NBs E, insert_item NBs NewSize E) NBs (Head B))
          (calloc NewSize) (Buckets g) in
  {| NumBuckets := wrap32 NewSize;
     NumEntries := NumEntries g;
     Buckets := NewBuckets |}.

(** [insert (Key, Data, InfoObj)] *)
Definition insert (g : Generator) (K : key_type) (D : data_type)
    (InfoObj : I) : Generator :=
  let g1 := {| NumBuckets := NumBuckets g;
               NumEntries := wrap32 (NumEntries g + 1);
               Buckets := Buckets g |} in
  let g2 := if wrap32 (4 * NumEntries g1) >=? wrap32 (3 * NumBuckets g1)
            then resize g1 (wrap32 (NumBuckets g1 * 2))
            else g1 in
  {| NumBuckets := NumBuckets g2;
     NumEntries := NumEntries g2;
     Buckets := insert_item (Buckets g2) (NumBuckets g2) (newItem K D InfoObj) |}.

(** The bytes of one entry: hash, then what the codec writes. *)
Definition emit_item (InfoObj : I) (Out : raw_ostream) (E : Item) : raw_ostream :=
  let Out := write 4 Out (Hash E) in
  let '(lenbytes, Len) := EmitKeyDataLength InfoObj (Key E) (Data E) in
  let Out := Out ++ lenbytes in
  let Out := Out ++ EmitKey InfoObj (Key E) Len.1 in
  Out ++ EmitData InfoObj (Key E) (Data E) Len.2.

(** The body of the payload loop of [Emit] for one bucket. *)
Definition emit_bucket (InfoObj : I) (B : Bucket) (Out : raw_ostream)
    : option (Bucket * raw_ostream) :=
  match Head B with
  | [] => Some (B, Out)
  | _ :: _ =>
      let O := wrap32 (tell Out) in
      if O =? 0 then None
      else
        let Out := write 2 Out (Length B) in
        if Length B =? 0 then None
        else Some ({| Off := O; Head := Head B; Length := Length B |},
                   foldl (emit_item InfoObj) Out (Head B))
  end.

Fixpoint emit_payload (InfoObj : I) (Bs : list Bucket) (Out : raw_ostream)
    : option (list Bucket * raw_ostream) :=
  match Bs with
  | [] => Some ([], Out)
  | B :: Bs' =>
      '(B', Out) ← emit_bucket InfoObj B Out;
      '(Bs'', Out) ← emit_payload InfoObj Bs' Out;
      Some (B' :: Bs'', Out)
  end.

(** [Emit (Out, InfoObj)]: the directory offset, the generator with the
    bucket offsets filled in, and the stream. *)
Definition Emit (g : Generator) (Out : raw_ostream) (InfoObj : I)
    : option (Z * Generator * raw_ostream) :=
  '(Bs, Out) ← emit_payload InfoObj (Buckets g) Out;
  let TableOff := wrap32 (tell Out) in
  let N := OffsetToAlignment TableOff alignOf_uint32_t in
  let TableOff := wrap32 (TableOff + N) in
  let Out := Out ++ replicate (Z.to_nat N) 0 in
  let Out := write 4 Out (NumBuckets g) in
  let Out := write 4 Out (NumEntries g) in
  let Out := foldl (λ Out B, write 4 Out (Off B)) Out Bs in
  Some (TableOff,
        {| NumBuckets := NumBuckets g; NumEntries := NumEntries g; Buckets := Bs |},
        Out).

(** A generator after a sequence of [insert] calls. *)
Definition build (InfoObj : I) (kvs : list (key_type * data_type)) : Generator :=
  foldl (λ g kv, insert g kv.1 kv.2 InfoObj) create kvs.

End Generator.

Global Arguments Item : clear implicits.
Global Arguments Bucket : clear implicits.
Global Arguments Generator : clear implicits.

End Gen.

(** ** The readers *)

Module Tbl.

(** The [Info] interface of the readers. [ReadKeyDataLength] is static: it
    gets the bytes at the cursor and returns the two lengths and how far
    it advanced the cursor. [ReadKey] and [ReadData] get the bytes at the
    pointer they are passed. *)
Class Info (I internal_key_type external_key_type data_type : Type) := {
  EqualKey : I → internal_key_type → internal_key_type → bool;
  ComputeHash : I → internal_key_type → Z;
  GetInternalKey : I → external_key_type → internal_key_type;
  GetExternalKey : I → internal_key_type → external_key_type;
  ReadKeyDataLength : list byte → (Z * Z) * nat;
  ReadKey : I → list byte → Z → internal_key_type;
  ReadData : I → internal_key_type → list byte → Z → data_type;
}.

Section Reader.
Context {I internal_key_type external_key_type data_type : Type}
        `{!Info I internal_key_type external_key_type data_type}.

(** [OnDiskChainedHashTable]; [Base] is the mapped stream, [Buckets]
    points at the first bucket-offset cell. *)
Record OnDiskChainedHashTable := mkTable {
  NumBuckets : Z;
  NumEntries : Z;
  Buckets : ptr;
  Base : list byte;
  InfoObj : I;
}.

Definition isEmpty (t : OnDiskChainedHashTable) : bool := NumEntries t =? 0.

(** [iterator]: [it_Data = None] is the null [Data] of [iterator()]. *)
Record iterator := mkIterator {
  it_Key : option internal_key_type;
  it_Data : option ptr;
  it_Len : Z;
  it_InfoObj : option I;
}.

(** [iterator()] *)
Definition iterator_end : iterator :=
  {| it_Key := None; it_Data := None; it_Len := 0; it_InfoObj := None |}.

(** [operator==] compares the [Data] pointers only. *)
Definition iterator_eq (X Y : iterator) : bool :=
  bool_decide (it_Data X = it_Data Y).

(** [operator*] *)
Definition deref (mem : list byte) (it : iterator) : option data_type :=
  K ← it_Key it; D ← it_Data it; P ← it_InfoObj it;
  Some (ReadData P K (drop D mem) (it_Len it)).

(** The [for] loop of [find] over the [n] entries left in the bucket. *)
Fixpoint find_loop (mem : list byte) (InfoPtr : I) (IKey : internal_key_type)
    (KeyHash : Z) (n : nat) (Items : ptr) : option iterator :=
  match n with
  | O => Some iterator_end
  | S n' =>
      '(ItemHash, Items) ← readNext 4 mem Items;
      let '(L, adv) := ReadKeyDataLength (drop Items mem) in
      let Items := (Items + adv)%nat in
      let ItemLen := wrap32 (L.1 + L.2) in
      if negb (ItemHash =? KeyHash)
      then find_loop mem InfoPtr IKey KeyHash n' (Items + Z.to_nat ItemLen)%nat
      else
        let X := ReadKey InfoPtr (drop Items mem) L.1 in
        if negb (EqualKey InfoPtr X IKey)
        then find_loop mem InfoPtr IKey KeyHash n' (Items + Z.to_nat ItemLen)%nat
        else Some {| it_Key := Some X;
                     it_Data := Some (Items + Z.to_nat L.1)%nat;
                     it_Len := L.2;
                     it_InfoObj := Some InfoPtr |}
  end.

(** [find (EKey, InfoPtr)], instrumented with the bucket index it
    probes. [InfoPtr = None] is the null default argument. *)
Definition find_probe (t : OnDiskChainedHashTable) (EKey : external_key_type)
    (InfoPtr : option I) : Z * option iterator :=
  let InfoPtr := match InfoPtr with Some P => P | None => InfoObj t end in
  let IKey := GetInternalKey (InfoObj t) EKey in
  let KeyHash := wrap32 (ComputeHash (InfoObj t) IKey) in
  let Idx := Z.land KeyHash (wrap32 (NumBuckets t - 1)) in
  let Bucket := (Buckets t + 4 * Z.to_nat Idx)%nat in
  (Idx,
   '(Offset, _) ← readNext 4 (Base t) Bucket;
   if Offset =? 0 then Some iterator_end
   else
     '(Len, Items) ← readNext 2 (Base t) (Z.to_nat Offset);
     find_loop (Base t) InfoPtr IKey KeyHash (Z.to_nat Len) Items).

Definition find (t : OnDiskChainedHashTable) (EKey : external_key_type)
    (InfoPtr : option I) : option iterator :=
  (find_probe t EKey InfoPtr).2.

(** [Create (Buckets, Base, InfoObj)]: the two asserts, then the header
    is read and [Buckets] left after it. The alignment assert is taken
    on the offset: [Base] is the start of an aligned mapping. *)
Definition Create (Bkts : ptr) (mem : list byte) (P : I)
    : option OnDiskChainedHashTable :=
  if negb (0 <? Bkts)%nat then None
  else if negb (Z.land (Z.of_nat Bkts) 3 =? 0) then None
  else
    '(NB, Bkts) ← readNext 4 mem Bkts;
    '(NE, Bkts) ← readNext 4 mem Bkts;
    Some {| NumBuckets := NB; NumEntries := NE; Buckets := Bkts;
            Base := mem; InfoObj := P |}.

(** [OnDiskIterableChainedHashTable] *)
Record OnDiskIterableChainedHashTable := mkIterable {
  base_type : OnDiskChainedHashTable;
  Payload : ptr;
}.

Definition CreateIterable (Bkts Pay : ptr) (mem : list byte) (P : I)
    : option OnDiskIterableChainedHashTable :=
  t ← Create Bkts mem P;
  Some {| base_type := t; Payload := Pay |}.

(** The state shared by [key_iterator] and [data_iterator]. *)
Record cursor := mkCursor {
  Ptr : option ptr;
  NumItemsInBucketLeft : Z;
  NumEntriesLeft : Z;
  c_InfoObj : option I;
}.

(** [key_begin] and [data_begin] *)
Definition cursor_begin (t : OnDiskIterableChainedHashTable) : cursor :=
  {| Ptr := Some (Payload t); NumItemsInBucketLeft := 0;
     NumEntriesLeft := NumEntries (base_type t);
     c_InfoObj := Some (InfoObj (base_type t)) |}.

(** [key_end] and [data_end] *)
Definition cursor_end : cursor :=
  {| Ptr := None; NumItemsInBucketLeft := 0; NumEntriesLeft := 0;
     c_InfoObj := None |}.

Definition cursor_eq (X Y : cursor) : bool :=
  NumEntriesLeft X =? NumEntriesLeft Y.

(** Preincrement, the same in both iterators. *)
Definition cursor_next (mem : list byte) (c : cursor) : option cursor :=
  P ← Ptr c;
  '(InBucket, P) ← (if NumItemsInBucketLeft c =? 0
                    then readNext 2 mem P
                    else Some (NumItemsInBucketLeft c, P));
  let P := (P + 4)%nat in
  let '(L, adv) := ReadKeyDataLength (drop P mem) in
  let P := (P + adv)%nat in
  let P := (P + Z.to_nat (wrap32 (L.1 + L.2)))%nat in
  if InBucket =? 0 then None
  else if NumEntriesLeft c =? 0 then None
  else Some {| Ptr := Some P;
               NumItemsInBucketLeft := InBucket - 1;
               NumEntriesLeft := NumEntriesLeft c - 1;
               c_InfoObj := c_InfoObj c |}.

(** The pointer arithmetic both [operator*] share: past the bucket
    header at a bucket boundary, past the hash, past the lengths. *)
Definition cursor_entry (mem : list byte) (c : cursor) : option (ptr * (Z * Z)) :=
  P ← Ptr c;
  let LocalPtr := if NumItemsInBucketLeft c =? 0 then (P + 2)%nat else P in
  let LocalPtr := (LocalPtr + 4)%nat in
  let '(L, adv) := ReadKeyDataLength (drop LocalPtr mem) in
  Some ((LocalPtr + adv)%nat, L).

(** [key_iterator::operator*] *)
Definition key_deref (mem : list byte) (c : cursor) : option external_key_type :=
  '(LocalPtr, L) ← cursor_entry mem c;
  P ← c_InfoObj c;
  let K := ReadKey P (drop LocalPtr mem) L.1 in
  Some (GetExternalKey P K).

(** [data_iterator::operator*] *)
Definition data_deref (mem : list byte) (c : cursor) : option data_type :=
  '(LocalPtr, L) ← cursor_entry mem c;
  P ← c_InfoObj c;
  let K := ReadKey P (drop LocalPtr mem) L.1 in
  Some (ReadData P K (drop (LocalPtr + Z.to_nat L.1) mem) L.2).

(** [for (it = begin; it != end; ++it) yield *it]. Each step lowers
    [NumEntriesLeft], so [NumEntriesLeft] steps are enough fuel. *)
Fixpoint collect {A} (star : list byte → cursor → option A) (mem : list byte)
    (fuel : nat) (c : cursor) : option (list A) :=
  if cursor_eq c cursor_end then Some []
  else match fuel with
       | O => None
       | S fuel' =>
           v ← star mem c;
           c' ← cursor_next mem c;
           vs ← collect star mem fuel' c';
           Some (v :: vs)
       end.

Definition keys (t : OnDiskIterableChainedHashTable) : option (list external_key_type) :=
  collect key_deref (Base (base_type t))
          (Z.to_nat (NumEntries (base_type t))) (cursor_begin t).

Definition data (t : OnDiskIterableChainedHashTable) : option (list data_type) :=
  collect data_deref (Base (base_type t))
          (Z.to_nat (NumEntries (base_type t))) (cursor_begin t).

End Reader.

Global Arguments OnDiskChainedHashTable : clear implicits.
Global Arguments OnDiskIterableChainedHashTable : clear implicits.
Global Arguments iterator : clear implicits.
Global Arguments cursor : clear implicits.

End Tbl.

(** ** The byte layout [Emit] produces *)

Section Layout.
Context {I key_type data_type : Type} `{!Gen.Info I key_type data_type}.
Variable InfoObj : I.

(** All entries of a bucket array, in bucket order then chain order. *)
Definition items (Bs : list (Gen.Bucket key_type data_type))
    : list (Gen.Item key_type data_type) :=
  Bs ≫= Gen.Head.

(** The entry [insert] allocates for a pair. *)
Definition entry (kv : key_type * data_type) : Gen.Item key_type data_type :=
  Gen.newItem kv.1 kv.2 InfoObj.

Definition item_bytes (E : Gen.Item key_type data_type) : list byte :=
  let '(lenbytes, Len) :=
    Gen.EmitKeyDataLength InfoObj (Gen.Key E) (Gen.Data E) in
  le_bytes 4 (Gen.Hash E) ++ lenbytes
    ++ Gen.EmitKey InfoObj (Gen.Key E) Len.1
    ++ Gen.EmitData InfoObj (Gen.Key E) (Gen.Data E) Len.2.

Definition chain_bytes (Es : list (Gen.Item key_type data_type)) : list byte :=
  Es ≫= item_bytes.

Definition block_bytes (B : Gen.Bucket key_type data_type) : list byte :=
  match Gen.Head B with
  | [] => []
  | _ :: _ => le_bytes 2 (Gen.Length B) ++ chain_bytes (Gen.Head B)
  end.

Definition payload_bytes (Bs : list (Gen.Bucket key_type data_type)) : list byte :=
  Bs ≫= block_bytes.

Definition directory_bytes (g : Gen.Generator key_type data_type) : list byte :=
  le_bytes 4 (Gen.NumBuckets g) ++ le_bytes 4 (Gen.NumEntries g)
    ++ (Gen.Buckets g ≫= λ B, le_bytes 4 (Gen.Off B)).

(** The two lengths the codec reports for an entry. *)
Definition lens (E : Gen.Item key_type data_type) : Z * Z :=
  (Gen.EmitKeyDataLength InfoObj (Gen.Key E) (Gen.Data E)).2.

(** An entry as [insert] makes it, for a pair the codec round-trips. *)
Definition sound (ok : key_type → data_type → Prop)
    (E : Gen.Item key_type data_type) : Prop :=
  ok (Gen.Key E) (Gen.Data E)
  ∧ Gen.Hash E = wrap32 (Gen.ComputeHash InfoObj (Gen.Key E)).

(** What [Emit] needs to go through: the payload starts after offset 0,
    the stream with padding and directory ends below 4 GiB, and no chain
    has a zero count. *)
Definition emit_ready (g : Gen.Generator key_type data_type)
    (Out : raw_ostream) : bool :=
  (0 <? tell Out)
  && (tell Out + Z.of_nat (length (payload_bytes (Gen.Buckets g)))
        + 3 + 8 + 4 * Z.of_nat (length (Gen.Buckets g)) <? 2 ^ 32)
  && forallb (λ B, match Gen.Head B with
                   | [] => true
                   | _ :: _ => negb (Gen.Length B =? 0)
                   end) (Gen.Buckets g).

(** The value of the last [insert] for a key. *)
Definition most_recent `{!EqDecision key_type}
    (kvs : list (key_type * data_type)) (k : key_type) : option data_type :=
  snd <$> last (filter (λ kv, kv.1 = k) kvs).

(** No bucket is longer than its 16-bit length field can say. *)
Definition lengths_fit (g : Gen.Generator key_type data_type) : bool :=
  forallb (λ B, Gen.Length B <? 2 ^ 16) (Gen.Buckets g).

End Layout.

(** ** A reader codec that matches a writer codec

    [ok k d] singles out the pairs the codec round-trips. *)

Section Matching.
Context {I J K IK D : Type} `{!Gen.Info I K D} `{!Tbl.Info J IK K D}.

Record matching (W : I) (R : J) (ok : K → D → Prop) : Prop := {
  m_hash : ∀ k d, ok k d →
    wrap32 (Tbl.ComputeHash R (Tbl.GetInternalKey R k))
    = wrap32 (Gen.ComputeHash W k);
  m_lengths : ∀ k d rest, ok k d →
    Tbl.ReadKeyDataLength ((Gen.EmitKeyDataLength W k d).1 ++ rest)
    = ((Gen.EmitKeyDataLength W k d).2,
       length (Gen.EmitKeyDataLength W k d).1);
  m_key_len : ∀ k d, ok k d →
    let L := (Gen.EmitKeyDataLength W k d).2 in
    0 ≤ L.1 ∧ length (Gen.EmitKey W k L.1) = Z.to_nat L.1;
  m_data_len : ∀ k d, ok k d →
    let L := (Gen.EmitKeyDataLength W k d).2 in
    0 ≤ L.2 ∧ length (Gen.EmitData W k d L.2) = Z.to_nat L.2;
  m_equal : ∀ k d rest k', ok k d →
    let L := (Gen.EmitKeyDataLength W k d).2 in
    Tbl.EqualKey R (Tbl.ReadKey R (Gen.EmitKey W k L.1 ++ rest) L.1)
                   (Tbl.GetInternalKey R k') = true ↔ k = k';
  m_key : ∀ k d rest, ok k d →
    let L := (Gen.EmitKeyDataLength W k d).2 in
    Tbl.GetExternalKey R (Tbl.ReadKey R (Gen.EmitKey W k L.1 ++ rest) L.1) = k;
  m_data : ∀ k d rest rest', ok k d →
    let L := (Gen.EmitKeyDataLength W k d).2 in
    Tbl.ReadData R (Tbl.ReadKey R (Gen.EmitKey W k L.1 ++ rest) L.1)
                   (Gen.EmitData W k d L.2 ++ rest') L.2 = d;
}.
End Matching.

(** ** The integer codec of the scenarios

    Key and value are [u32] little-endian, there is no length prefix, both
    lengths are 4. The codec object carries a salt added to the hash; with
    salt 0 the hash of a key is the key. *)

Module IntCodec.

#[global] Instance writer : Gen.Info Z Z Z := {|
  Gen.ComputeHash salt k := k + salt;
  Gen.EmitKeyDataLength _ _ _ := ([], (4, 4));
  Gen.EmitKey _ k _ := le_bytes 4 k;
  Gen.EmitData _ _ d _ := le_bytes 4 d;
|}.

#[global] Instance reader : Tbl.Info Z Z Z Z := {|
  Tbl.EqualKey _ a b := a =? b;
  Tbl.ComputeHash salt k := k + salt;
  Tbl.GetInternalKey _ k := k;
  Tbl.GetExternalKey _ k := k;
  Tbl.ReadKeyDataLength _ := ((4, 4), O);
  Tbl.ReadKey _ bs len := le_value (take (Z.to_nat len) bs);
  Tbl.ReadData _ _ bs len := le_value (take (Z.to_nat len) bs);
|}.

Definition u32 (k d : Z) : Prop := (0 ≤ k < 2 ^ 32) ∧ (0 ≤ d < 2 ^ 32).

(** [(k, k)] for consecutive keys starting at [from]. *)
Definition range (from : Z) (n : nat) : list (Z * Z) :=
  (λ i : nat, (from + Z.of_nat i, from + Z.of_nat i)) <$> seq 0 n.

Definition prefix8 : raw_ostream := replicate 8 0.

(** Key 7 inserted twice, then 46 other keys: the 48th [insert] resizes. *)
Definition twice : list (Z * Z) := [(7, 100); (7, 200)] ++ range 1000 46.

(** 65536 entries that all hash to bucket 0. *)
Definition crowd : list (Z * Z) := replicate (Z.to_nat 65536) (0, 0).

(** The reader over what [Emit] wrote for [kvs] after [Out]. *)
Definition roundtrip (kvs : list (Z * Z)) (Out : raw_ostream)
    : option (Tbl.OnDiskIterableChainedHashTable Z) :=
  '(TableOff, _, Out') ← Gen.Emit (Gen.build 0 kvs) Out 0;
  Tbl.CreateIterable (Z.to_nat TableOff) (length Out) Out' 0.

(** The lookup reader of [roundtrip]; an empty reader stands in when
    [Emit] or [Create] fail. *)
Definition table (kvs : list (Z * Z)) (Out : raw_ostream)
    : Tbl.OnDiskChainedHashTable Z :=
  match roundtrip kvs Out with
  | Some t => Tbl.base_type t
  | None => {| Tbl.NumBuckets := 0; Tbl.NumEntries := 0; Tbl.Buckets := O;
               Tbl.Base := []; Tbl.InfoObj := 0 |}
  end.

Definition lookup (kvs : list (Z * Z)) (Out : raw_ostream) (k : Z)
    : option (option Z) :=
  t ← roundtrip kvs Out;
  it ← Tbl.find (Tbl.base_type t) k None;
  Some (Tbl.deref (Tbl.Base (Tbl.base_type t)) it).

End IntCodec.

(** ** A codec whose object changes [EqualKey]

    Keys and values are written as in the integer codec and the hash of a
    key is its low six bits, so keys 64 apart collide on the full hash.
    The codec object is a flag: [true] compares keys exactly, [false]
    compares their low six bits only. [GetInternalKey] and [ComputeHash]
    do not look at the flag. *)

Module FoldCodec.

#[global] Instance writer : Gen.Info bool Z Z := {|
  Gen.ComputeHash _ k := k mod 64;
  Gen.EmitKeyDataLength _ _ _ := ([], (4, 4));
  Gen.EmitKey _ k _ := le_bytes 4 k;
  Gen.EmitData _ _ d _ := le_bytes 4 d;
|}.

#[global] Instance reader : Tbl.Info bool Z Z Z := {|
  Tbl.EqualKey (strict : bool) a b :=
    if strict then a =? b else a mod 64 =? b mod 64;
  Tbl.ComputeHash _ k := k mod 64;
  Tbl.GetInternalKey _ k := k;
  Tbl.GetExternalKey _ k := k;
  Tbl.ReadKeyDataLength _ := ((4, 4), O);
  Tbl.ReadKey _ bs len := le_value (take (Z.to_nat len) bs);
  Tbl.ReadData _ _ bs len := le_value (take (Z.to_nat len) bs);
|}.

(** The lookup reader, made with the exact codec, over what [Emit] wrote
    for [kvs] after [Out]; an empty reader stands in when [Emit] or
    [Create] fail. *)
Definition table (kvs : list (Z * Z)) (Out : raw_ostream)
    : Tbl.OnDiskChainedHashTable bool :=
  match ('(TableOff, _, Out') ← Gen.Emit (Gen.build true kvs) Out true;
         Tbl.Create (Z.to_nat TableOff) Out' true) with
  | Some t => t
  | None => {| Tbl.NumBuckets := 0; Tbl.NumEntries := 0; Tbl.Buckets := O;
               Tbl.Base := []; Tbl.InfoObj := true |}
  end.

(** Keys 7 and 71 collide on the hash; 71 is inserted last and heads the
    chain. *)
Definition colliding : list (Z * Z) := [(7, 100); (71, 200)].

End FoldCodec.

(** ** Representation invariant of the generator *)

Section Invariant.
Context {K D : Type}.
Implicit Types (B : Gen.Bucket K D) (E : Gen.Item K D).

(** Cell [i] of an array of [Size] cells before [Emit]: no offset yet,
    the cached count is the chain length, and every entry of the chain
    hashes to [i]. *)
Definition bucket_ok (Size : Z) (i : nat) B : Prop :=
  Gen.Off B = 0
  ∧ Gen.Length B = Z.of_nat (length (Gen.Head B))
  ∧ Forall (λ E, 0 ≤ Gen.Hash E < 2 ^ 32
                 ∧ Z.land (Gen.Hash E) (Size - 1) = Z.of_nat i) (Gen.Head B).

Definition table_ok (Size : Z) (Bs : list (Gen.Bucket K D)) : Prop :=
  length Bs = Z.to_nat Size ∧ ∀ i B, Bs !! i = Some B → bucket_ok Size i B.

Definition wf (g : Gen.Generator K D) : Prop :=
  (∃ k, 6 ≤ k ≤ 30 ∧ Gen.NumBuckets g = 2 ^ k)
  ∧ table_ok (Gen.NumBuckets g) (Gen.Buckets g)
  ∧ Gen.NumEntries g = Z.of_nat (length (items (Gen.Buckets g)))
  ∧ 4 * Gen.NumEntries g < 3 * Gen.NumBuckets g.

(** The bucket index of an entry in an array of [Size] cells. *)
Definition slot (Size : Z) (E : Gen.Item K D) : Z :=
  Z.land (Gen.Hash E) (Size - 1).

(** The chain of cell [j], when there is such a cell. *)
Definition Head_of (Bs : list (Gen.Bucket K D)) (j : nat)
    : option (list (Gen.Item K D)) :=
  Gen.Head <$> Bs !! j.

(** The entries of a list that go to cell [j]. *)
Definition selected (Size : Z) (j : nat) (Es : list (Gen.Item K D))
    : list (Gen.Item K D) :=
  filter (λ E, slot Size E = Z.of_nat j) Es.

(** How one [insert] moves the two counters. *)
Definition grow (c : Z * Z) : Z * Z :=
  let NE := wrap32 (c.2 + 1) in
  if wrap32 (4 * NE) >=? wrap32 (3 * c.1)
  then (wrap32 (wrap32 (c.1 * 2)), NE)
  else (c.1, NE).
End Invariant.

(** * Properties *)

(** ** The scenarios, evaluated *)

Example scenario_single :
  IntCodec.lookup [(7, 42)] IntCodec.prefix8 7 = Some (Some 42)
  ∧ IntCodec.lookup [(7, 42)] IntCodec.prefix8 0 = Some None.
Proof. vm_compute. done. Qed.

Example scenario_single_bytes :
  (λ r, (r.1.1, r.2)) <$> Gen.Emit (Gen.build 0 [(7, 42)]) IntCodec.prefix8 0
  = Some (24,
          IntCodec.prefix8
            ++ [1; 0] ++ [7; 0; 0; 0] ++ [7; 0; 0; 0] ++ [42; 0; 0; 0]
            ++ [0; 0]
            ++ [64; 0; 0; 0] ++ [1; 0; 0; 0]
            ++ (<[7%nat:=8]> (replicate 64 0) ≫= le_bytes 4)).
Proof. vm_compute. reflexivity. Qed.

Example scenario_collision :
  IntCodec.lookup [(7, 100); (71, 200)] IntCodec.prefix8 7 = Some (Some 100)
  ∧ IntCodec.lookup [(7, 100); (71, 200)] IntCodec.prefix8 71 = Some (Some 200)
  ∧ (Gen.Length <$> Gen.Buckets (Gen.build 0 [(7, 100); (71, 200)]) !! 7%nat)
    = Some 2.
Proof. vm_compute. done. Qed.

Example scenario_growth :
  Gen.NumBuckets (Gen.build 0 (IntCodec.range 0 49)) = 128
  ∧ (t ← IntCodec.roundtrip (IntCodec.range 0 49) IntCodec.prefix8; Tbl.data t)
    = Some ((λ i : nat, Z.of_nat i) <$> seq 0 49)
  ∧ forallb (λ kv, bool_decide
               (IntCodec.lookup (IntCodec.range 0 49) IntCodec.prefix8 kv.1
                = Some (Some kv.2)))
            (IntCodec.range 0 49) = true.
Proof. vm_compute. done. Qed.

(** ** Little-endian fields *)

Lemma length_le_bytes n v : length (le_bytes n v) = n.
Proof. revert v. induction n as [|n IH]; intros v; simpl; [done|]. by rewrite IH. Qed.

Lemma le_value_le_bytes n v : le_value (le_bytes n v) = v mod 256 ^ Z.of_nat n.
Proof.
  revert v. induction n as [|n IH]; intros v.
  - simpl. by rewrite Z.mod_1_r.
  - cbn [le_bytes le_value]. rewrite IH.
    rewrite Nat2Z.inj_succ, Z.pow_succ_r by lia.
    rewrite Z.rem_mul_r by lia. done.
Qed.

Lemma le_value_le_bytes_4 v : le_value (le_bytes 4 v) = wrap32 v.
Proof. by rewrite le_value_le_bytes. Qed.

Lemma wrap32_small v : 0 ≤ v < 2 ^ 32 → wrap32 v = v.
Proof. intros. unfold wrap32. by rewrite Z.mod_small. Qed.

Lemma wrap32_range v : 0 ≤ wrap32 v < 2 ^ 32.
Proof. unfold wrap32. apply Z.mod_pos_bound. lia. Qed.

Lemma wrap32_idemp v : wrap32 (wrap32 v) = wrap32 v.
Proof. apply wrap32_small, wrap32_range. Qed.

(** Reading back a field that sits right after [pre]. *)
Lemma readNext_field n pre v rest :
  readNext n (pre ++ le_bytes n v ++ rest) (length pre)
  = Some (v mod 256 ^ Z.of_nat n, (length pre + n)%nat).
Proof.
  unfold readNext. rewrite decide_True.
  - rewrite drop_app_length.
    rewrite take_app_length' by (by rewrite length_le_bytes).
    by rewrite le_value_le_bytes.
  - rewrite !length_app, length_le_bytes. lia.
Qed.

Lemma readNext_at n mem p pre v rest :
  mem = pre ++ le_bytes n v ++ rest → p = length pre →
  readNext n mem p = Some (v mod 256 ^ Z.of_nat n, (p + n)%nat).
Proof. intros -> ->. apply readNext_field. Qed.

(** A cell of an array of 32-bit fields. *)
Lemma readNext_cell {A} (f : A → Z) (l : list A) (i : nat) x pre rest :
  l !! i = Some x →
  readNext 4 (pre ++ (l ≫= λ a, le_bytes 4 (f a)) ++ rest) (length pre + 4 * i)%nat
  = Some (wrap32 (f x), (length pre + 4 * i + 4)%nat).
Proof.
  intros Hi.
  rewrite <-(take_drop_middle l i x Hi).
  rewrite bind_app, bind_cons, <-!(assoc_L (++)), (assoc_L (++) pre).
  eapply readNext_at; [done|].
  rewrite length_app. f_equal.
  assert (Hlen : ∀ l' : list A, length (l' ≫= λ a, le_bytes 4 (f a)) = (4 * length l')%nat).
  { induction l' as [|a l' IH]; [done|].
    rewrite bind_cons, length_app, length_le_bytes, IH. simpl. lia. }
  rewrite Hlen, length_take.
  apply lookup_lt_Some in Hi. lia.
Qed.

(** ** The generator keeps its invariant *)

Section GeneratorFacts.
Context {I K D : Type} `{!Gen.Info I K D}.
Implicit Types (B : Gen.Bucket K D) (E : Gen.Item K D)
  (Bs : list (Gen.Bucket K D)) (g : Gen.Generator K D).

Lemma items_cons B Bs : items (B :: Bs) = Gen.Head B ++ items Bs.
Proof. done. Qed.

Lemma items_alter_push E Bs (i : nat) :
  (i < length Bs)%nat → items (alter (Gen.push E) i Bs) ≡ₚ E :: items Bs.
Proof.
  revert i. induction Bs as [|B Bs IH]; intros i Hi; simpl in Hi; [lia|].
  destruct i as [|i]; cbn [alter list_alter].
  - done.
  - rewrite !items_cons, IH by lia. by rewrite Permutation_middle.
Qed.

Lemma length_head_le Bs (i : nat) B :
  Bs !! i = Some B → (length (Gen.Head B) ≤ length (items Bs))%nat.
Proof.
  revert i. induction Bs as [|B' Bs IH]; intros i Hi; [done|].
  rewrite items_cons, length_app.
  destruct i as [|i]; simpl in Hi.
  - injection Hi as ->. lia.
  - apply IH in Hi. lia.
Qed.

Lemma index_lt (h : Z) (k : Z) :
  0 ≤ k → 0 ≤ Z.land h (2 ^ k - 1) < 2 ^ k.
Proof.
  intros Hk. replace (2 ^ k - 1) with (Z.ones k) by (rewrite Z.ones_equiv; lia).
  rewrite Z.land_ones by done. apply Z.mod_pos_bound. lia.
Qed.

Lemma wrap64_pred_pow (k : Z) : 0 ≤ k ≤ 32 → wrap64 (2 ^ k - 1) = 2 ^ k - 1.
Proof.
  intros Hk. unfold wrap64. apply Z.mod_small.
  assert (0 < 2 ^ k) by lia.
  assert (2 ^ k ≤ 2 ^ 32) by (apply Z.pow_le_mono_r; lia). lia.
Qed.

Lemma insert_item_ok Bs (k : Z) E :
  0 ≤ k ≤ 32 → table_ok (2 ^ k) Bs → 0 ≤ Gen.Hash E < 2 ^ 32 →
  Z.of_nat (length (items Bs)) + 1 < 2 ^ 32 →
  table_ok (2 ^ k) (Gen.insert_item Bs (2 ^ k) E)
  ∧ items (Gen.insert_item Bs (2 ^ k) E) ≡ₚ E :: items Bs.
Proof.
  intros Hk [Hlen Hok] HE Hroom. unfold Gen.insert_item.
  rewrite wrap64_pred_pow by done.
  pose proof (index_lt (Gen.Hash E) k ltac:(lia)) as Hidx.
  set (n := Z.to_nat (Z.land (Gen.Hash E) (2 ^ k - 1))).
  assert (Hn : (n < length Bs)%nat) by (subst n; lia).
  split; [split|].
  - by rewrite length_alter.
  - intros i B. rewrite list_lookup_alter.
    destruct (decide (n = i)) as [<-|Hne]; [|apply Hok].
    destruct (Bs !! n) as [B0|] eqn:HB0; simpl; [|done].
    intros [= <-]. destruct (Hok _ _ HB0) as (Hoff & Hcount & Hall).
    pose proof (length_head_le _ _ _ HB0).
    split; [done|]. split; simpl.
    + rewrite Hcount, wrap32_small by lia. lia.
    + constructor; [|done]. split; [done|]. subst n. lia.
  - by apply items_alter_push.
Qed.

(** The two nested loops of [resize] visit the entries in [items] order. *)
Lemma resize_loops {A} (f : A → Gen.Item K D → A) (a : A) Bs :
  foldl (λ a B, foldl f a (Gen.Head B)) a Bs = foldl f a (items Bs).
Proof.
  revert a. induction Bs as [|B Bs IH]; intros a; [done|].
  rewrite items_cons, foldl_app. simpl. apply IH.
Qed.

Lemma fill_ok (k : Z) (Es : list (Gen.Item K D)) : ∀ Bs,
  0 ≤ k ≤ 32 → table_ok (2 ^ k) Bs →
  Forall (λ E, 0 ≤ Gen.Hash E < 2 ^ 32) Es →
  Z.of_nat (length (items Bs)) + Z.of_nat (length Es) < 2 ^ 32 →
  table_ok (2 ^ k) (foldl (λ NBs E, Gen.insert_item NBs (2 ^ k) E) Bs Es)
  ∧ items (foldl (λ NBs E, Gen.insert_item NBs (2 ^ k) E) Bs Es)
    ≡ₚ Es ++ items Bs.
Proof.
  induction Es as [|E Es IH]; intros Bs Hk Hok Hh Hroom; [done|].
  apply Forall_cons in Hh as [HE Hh]. simpl in Hroom.
  destruct (insert_item_ok Bs k E) as [Hok1 Hperm1]; [done|done|done|lia|].
  simpl. destruct (IH (Gen.insert_item Bs (2 ^ k) E)) as [Hok2 Hperm2];
    [done|done|done| |].
  { rewrite Hperm1. simpl. lia. }
  split; [done|]. rewrite Hperm2, Hperm1. by rewrite Permutation_middle.
Qed.

Lemma calloc_ok (k : Z) : 0 ≤ k → table_ok (2 ^ k) (Gen.calloc (2 ^ k) : list (Gen.Bucket K D)).
Proof.
  intros Hk. split.
  - unfold Gen.calloc. by rewrite length_replicate.
  - intros i B [-> _]%lookup_replicate. repeat split; constructor.
Qed.

Lemma items_calloc (n : Z) : items (Gen.calloc n : list (Gen.Bucket K D)) = [].
Proof.
  unfold Gen.calloc. induction (Z.to_nat n) as [|m IH]; [done|].
  cbn [replicate]. by rewrite items_cons, IH.
Qed.

Lemma table_hashes (Size : Z) Bs :
  table_ok Size Bs → Forall (λ E, 0 ≤ Gen.Hash E < 2 ^ 32) (items Bs).
Proof.
  intros [_ Hok]. apply Forall_forall. intros E HE.
  apply list_elem_of_bind in HE as (B & HE & HB).
  apply list_elem_of_lookup in HB as [i HB].
  destruct (Hok _ _ HB) as (_ & _ & Hall).
  rewrite Forall_forall in Hall. by apply Hall.
Qed.
End GeneratorFacts.

Section InsertFacts.
Context {I K D : Type} `{!Gen.Info I K D}.
Implicit Types (g : Gen.Generator K D) (kvs : list (K * D)).
Variable W : I.

Lemma insert_counters g k d :
  (Gen.NumBuckets (Gen.insert g k d W), Gen.NumEntries (Gen.insert g k d W))
  = grow (Gen.NumBuckets g, Gen.NumEntries g).
Proof.
  unfold Gen.insert, grow. cbn [Gen.NumBuckets Gen.NumEntries fst snd].
  by destruct (_ >=? _).
Qed.

Lemma build_snoc kvs kv :
  Gen.build W (kvs ++ [kv]) = Gen.insert (Gen.build W kvs) kv.1 kv.2 W.
Proof. unfold Gen.build. by rewrite foldl_app. Qed.

Lemma build_counters kvs :
  (Gen.NumBuckets (Gen.build W kvs), Gen.NumEntries (Gen.build W kvs))
  = Nat.iter (length kvs) grow (64, 0).
Proof.
  induction kvs as [|kv kvs IH] using rev_ind; [done|].
  rewrite build_snoc, insert_counters, IH, length_app, Nat.add_comm. done.
Qed.

Lemma create_wf : wf (Gen.create : Gen.Generator K D).
Proof.
  split; [exists 6; split; [lia|done]|].
  split; [apply (calloc_ok 6); lia|].
  split; [|done]. cbn [Gen.create Gen.Buckets Gen.NumEntries].
  by rewrite items_calloc.
Qed.

Lemma insert_ok g k d :
  wf g → Gen.NumEntries g + 1 < 2 ^ 29 →
  wf (Gen.insert g k d W)
  ∧ items (Gen.Buckets (Gen.insert g k d W))
    ≡ₚ Gen.newItem k d W :: items (Gen.Buckets g)
  ∧ Gen.NumEntries (Gen.insert g k d W) = Gen.NumEntries g + 1
  ∧ Gen.NumBuckets (Gen.insert g k d W)
    = if 4 * (Gen.NumEntries g + 1) >=? 3 * Gen.NumBuckets g
      then 2 * Gen.NumBuckets g else Gen.NumBuckets g.
Proof.
  intros ((e & He & HNB) & Hok & HNE & Hload) Hroom.
  assert (0 ≤ Gen.NumEntries g) by lia.
  assert (H64 : 2 ^ 6 ≤ 2 ^ e) by (apply Z.pow_le_mono_r; lia).
  assert (H30 : 2 ^ e ≤ 2 ^ 30) by (apply Z.pow_le_mono_r; lia).
  assert (Hh : 0 ≤ Gen.Hash (Gen.newItem k d W) < 2 ^ 32) by apply wrap32_range.
  unfold Gen.insert. cbn [Gen.NumBuckets Gen.NumEntries Gen.Buckets].
  rewrite (wrap32_small (Gen.NumEntries g + 1)) by lia.
  rewrite (wrap32_small (4 * _)), (wrap32_small (3 * _)) by lia.
  rewrite HNB in *.
  destruct (4 * (Gen.NumEntries g + 1) >=? 3 * 2 ^ e) eqn:Hge.
  - rewrite Z.geb_leb in Hge. apply Z.leb_le in Hge.
    assert (e ≤ 29).
    { destruct (decide (e ≤ 29)); [done|].
      assert (e = 30) as -> by lia. lia. }
    assert (Hnew : wrap32 (2 ^ e * 2) = 2 ^ (e + 1)).
    { rewrite Z.pow_add_r by lia.
      assert (2 ^ e ≤ 2 ^ 29) by (apply Z.pow_le_mono_r; lia).
      apply wrap32_small. lia. }
    unfold Gen.resize. cbn [Gen.NumBuckets Gen.NumEntries Gen.Buckets].
    rewrite Hnew, resize_loops.
    assert (Hnew' : wrap32 (2 ^ (e + 1)) = 2 ^ (e + 1)).
    { rewrite <-Hnew. apply wrap32_idemp. }
    rewrite Hnew'.
    destruct (fill_ok (e + 1) (items (Gen.Buckets g)) (Gen.calloc (2 ^ (e + 1))))
      as [Hok1 Hperm1].
    { lia. } { apply calloc_ok. lia. } { by eapply table_hashes. }
    { rewrite items_calloc. simpl. lia. }
    rewrite items_calloc, app_nil_r in Hperm1.
    destruct (insert_item_ok _ (e + 1) (Gen.newItem k d W) ltac:(lia) Hok1 Hh)
      as [Hok2 Hperm2].
    { rewrite Hperm1. lia. }
    rewrite Hperm1 in Hperm2.
    unfold wf. cbn [Gen.NumBuckets Gen.NumEntries Gen.Buckets].
    split; [|split; [done|split; [done|]]].
    + split; [exists (e + 1); split; [lia|done]|].
      split; [done|]. rewrite Hperm2. simpl length.
      rewrite Z.pow_add_r by lia. lia.
    + rewrite Z.pow_add_r by lia. lia.
  - rewrite Z.geb_leb in Hge. apply Z.leb_gt in Hge.
    destruct (insert_item_ok _ e (Gen.newItem k d W) ltac:(lia) Hok Hh)
      as [Hok2 Hperm2]; [lia|].
    unfold wf. cbn [Gen.NumBuckets Gen.NumEntries Gen.Buckets].
    split; [|split; [done|split; [done|done]]].
    split; [exists e; split; [lia|done]|].
    split; [done|]. rewrite Hperm2. simpl length. lia.
Qed.

Lemma build_ok kvs :
  Z.of_nat (length kvs) < 2 ^ 29 →
  wf (Gen.build W kvs)
  ∧ items (Gen.Buckets (Gen.build W kvs)) ≡ₚ entry W <$> kvs
  ∧ Gen.NumEntries (Gen.build W kvs) = Z.of_nat (length kvs).
Proof.
  induction kvs as [|kv kvs IH] using rev_ind; intros Hn.
  - split; [apply create_wf|]. split; [|done].
    change (Gen.build W []) with (Gen.create : Gen.Generator K D).
    cbn [Gen.create Gen.Buckets]. by rewrite items_calloc.
  - rewrite length_app in Hn. simpl in Hn.
    destruct IH as (Hwf & Hperm & HNE); [lia|].
    rewrite build_snoc.
    destruct (insert_ok (Gen.build W kvs) kv.1 kv.2 Hwf) as (Hwf' & Hp & HNE' & _);
      [lia|].
    split; [done|]. split.
    + rewrite Hp, Hperm, fmap_app. simpl. by rewrite <-Permutation_cons_append.
    + rewrite HNE', HNE, length_app. simpl. lia.
Qed.
End InsertFacts.

(** ** What [Emit] writes *)

Section EmitFacts.
Context {I K D : Type} `{!Gen.Info I K D}.
Implicit Types (B : Gen.Bucket K D) (E : Gen.Item K D)
  (Bs : list (Gen.Bucket K D)) (g : Gen.Generator K D) (Out : raw_ostream).
Variable W : I.

Lemma emit_item_eq Out E : Gen.emit_item W Out E = Out ++ item_bytes W E.
Proof.
  unfold Gen.emit_item, item_bytes, write.
  destruct (Gen.EmitKeyDataLength W (Gen.Key E) (Gen.Data E)) as [lb L].
  by rewrite <-!(assoc_L (++)).
Qed.

Lemma emit_chain_eq Es Out :
  foldl (Gen.emit_item W) Out Es = Out ++ chain_bytes W Es.
Proof.
  revert Out. induction Es as [|E Es IH]; intros Out; cbn [foldl].
  - by rewrite app_nil_r.
  - rewrite IH, emit_item_eq. unfold chain_bytes. rewrite bind_cons.
    by rewrite <-(assoc_L (++)).
Qed.

Lemma payload_bytes_cons B Bs :
  payload_bytes W (B :: Bs) = block_bytes W B ++ payload_bytes W Bs.
Proof. done. Qed.

Lemma emit_bucket_spec B Out B' Out' :
  Gen.emit_bucket W B Out = Some (B', Out') →
  Out' = Out ++ block_bytes W B
  ∧ Gen.Head B' = Gen.Head B ∧ Gen.Length B' = Gen.Length B
  ∧ (Gen.Head B = [] → Gen.Off B' = Gen.Off B)
  ∧ (Gen.Head B ≠ [] →
     Gen.Off B' = wrap32 (tell Out) ∧ Gen.Off B' ≠ 0 ∧ Gen.Length B ≠ 0).
Proof.
  unfold Gen.emit_bucket, block_bytes.
  destruct (Gen.Head B) as [|E Es] eqn:HB.
  - intros [= <- <-]. rewrite app_nil_r. by rewrite HB.
  - destruct (wrap32 (tell Out) =? 0) eqn:Hz; [done|].
    destruct (Gen.Length B =? 0) eqn:Hl; [done|].
    rewrite emit_chain_eq. unfold write. rewrite <-(assoc_L (++)).
    intros [= <- <-]. cbn [Gen.Head Gen.Length Gen.Off].
    apply Z.eqb_neq in Hz, Hl. done.
Qed.

Lemma emit_payload_spec Bs : ∀ Out Bs' Out',
  Gen.emit_payload W Bs Out = Some (Bs', Out') →
  Out' = Out ++ payload_bytes W Bs
  ∧ length Bs' = length Bs
  ∧ ∀ (i : nat) B, Bs !! i = Some B →
      ∃ B', Bs' !! i = Some B'
        ∧ Gen.Head B' = Gen.Head B ∧ Gen.Length B' = Gen.Length B
        ∧ (Gen.Head B = [] → Gen.Off B' = Gen.Off B)
        ∧ (Gen.Head B ≠ [] →
           Gen.Off B' = wrap32 (tell (Out ++ payload_bytes W (take i Bs)))
           ∧ Gen.Off B' ≠ 0 ∧ Gen.Length B ≠ 0).
Proof.
  induction Bs as [|B Bs IH]; intros Out Bs' Out'.
  - intros [= <- <-]. by rewrite app_nil_r.
  - cbn [Gen.emit_payload].
    destruct (Gen.emit_bucket W B Out) as [[B1 Out1]|] eqn:H1; [|done].
    cbn [mbind option_bind].
    destruct (Gen.emit_payload W Bs Out1) as [[Bs1 Out2]|] eqn:H2; [|done].
    cbn [mbind option_bind]. intros [= <- <-].
    apply emit_bucket_spec in H1 as (-> & Hh & Hl & He & Hne).
    apply IH in H2 as (-> & Hlen & Hcells).
    split; [by rewrite payload_bytes_cons, <-(assoc_L (++))|].
    split; [by simpl; rewrite Hlen|].
    intros [|i] B0 Hi; simpl in Hi.
    + injection Hi as <-. exists B1. cbn [take].
      change (payload_bytes W []) with (@nil byte). by rewrite app_nil_r.
    + destruct (Hcells i B0 Hi) as (B' & ? & ? & ? & ? & Hoff).
      exists B'. repeat (split; [done|]).
      cbn [take]. by rewrite payload_bytes_cons, (assoc_L (++)).
Qed.

(** [Emit] goes through when the payload starts after offset 0, ends
    below 4 GiB, and no chain has a zero count. *)
Lemma emit_payload_total Bs : ∀ Out,
  0 < tell Out →
  tell Out + Z.of_nat (length (payload_bytes W Bs)) < 2 ^ 32 →
  Forall (λ B, Gen.Head B ≠ [] → Gen.Length B ≠ 0) Bs →
  is_Some (Gen.emit_payload W Bs Out).
Proof.
  induction Bs as [|B Bs IH]; intros Out Hpos Hfit Hlen; [by eexists|].
  apply Forall_cons in Hlen as [HB Hlen].
  rewrite payload_bytes_cons, length_app in Hfit.
  cbn [Gen.emit_payload].
  assert (is_Some (Gen.emit_bucket W B Out)) as [[B1 Out1] H1].
  { unfold Gen.emit_bucket. destruct (Gen.Head B) as [|E Es]; [by eexists|].
    rewrite wrap32_small by lia.
    destruct (tell Out =? 0) eqn:Hz; [apply Z.eqb_eq in Hz; lia|].
    destruct (Gen.Length B =? 0) eqn:Hl; [apply Z.eqb_eq in Hl; by destruct HB|].
    by eexists. }
  rewrite H1. cbn [mbind option_bind].
  apply emit_bucket_spec in H1 as (-> & _).
  destruct (IH (Out ++ block_bytes W B)) as [[Bs1 Out2] H2]; [| |done|].
  { unfold tell in *. rewrite length_app. lia. }
  { unfold tell in *. rewrite length_app. lia. }
  rewrite H2. by eexists.
Qed.

(** At offset 0 the first chain trips the assert. *)
Lemma emit_payload_at_zero Bs :
  items Bs ≠ [] → Gen.emit_payload W Bs [] = None.
Proof.
  induction Bs as [|B Bs IH]; [done|].
  rewrite items_cons. intros Hne. cbn [Gen.emit_payload].
  unfold Gen.emit_bucket. destruct (Gen.Head B) as [|E Es]; [|done].
  cbn [mbind option_bind]. by rewrite IH.
Qed.

Lemma write_cells Bs Out :
  foldl (λ Out B, write 4 Out (Gen.Off B)) Out Bs
  = Out ++ (Bs ≫= λ B, le_bytes 4 (Gen.Off B)).
Proof.
  revert Out. induction Bs as [|B Bs IH]; intros Out; cbn [foldl].
  - by rewrite app_nil_r.
  - rewrite IH. unfold write. by rewrite bind_cons, <-(assoc_L (++)).
Qed.

Lemma Emit_spec g Out off g' Out' :
  Gen.Emit g Out W = Some (off, g', Out') →
  let table_off := wrap32 (tell (Out ++ payload_bytes W (Gen.Buckets g))) in
  let N := (- table_off) mod 4 in
  Gen.emit_payload W (Gen.Buckets g) Out
  = Some (Gen.Buckets g', Out ++ payload_bytes W (Gen.Buckets g))
  ∧ Gen.NumBuckets g' = Gen.NumBuckets g
  ∧ Gen.NumEntries g' = Gen.NumEntries g
  ∧ off = wrap32 (table_off + N)
  ∧ Out' = Out ++ payload_bytes W (Gen.Buckets g)
             ++ replicate (Z.to_nat N) 0 ++ directory_bytes g'.
Proof.
  unfold Gen.Emit.
  destruct (Gen.emit_payload W (Gen.Buckets g) Out) as [[Bs1 Out1]|] eqn:H1; [|done].
  cbn [mbind option_bind]. intros [= <- <- <-].
  pose proof (emit_payload_spec _ _ _ _ H1) as (-> & _).
  cbn [Gen.NumBuckets Gen.NumEntries Gen.Buckets].
  repeat (split; [done|]).
  rewrite write_cells. unfold write, directory_bytes, OffsetToAlignment, alignOf_uint32_t.
  cbn [Gen.NumBuckets Gen.NumEntries Gen.Buckets].
  by rewrite <-!(assoc_L (++)).
Qed.
End EmitFacts.

(** ** Reading one entry back *)

Section EntryFacts.
Context {I J K IK D : Type} `{!Gen.Info I K D} `{!Tbl.Info J IK K D}.
Implicit Types (E : Gen.Item K D) (mem pre post : list byte).
Variables (W : I) (R : J) (ok : K → D → Prop).
Hypothesis Hm : matching W R ok.

Lemma entry_sound kv : ok kv.1 kv.2 → sound W ok (entry W kv).
Proof. by split. Qed.

Lemma item_at E pre post mem :
  sound W ok E → mem = pre ++ item_bytes W E ++ post →
  Z.of_nat (length mem) < 2 ^ 32 →
  ∃ adv : nat,
    let q := (length pre + 4)%nat in
    readNext 4 mem (length pre) = Some (Gen.Hash E, q)
    ∧ Tbl.ReadKeyDataLength (drop q mem) = (lens W E, adv)
    ∧ drop (q + adv) mem
      = Gen.EmitKey W (Gen.Key E) (lens W E).1
          ++ Gen.EmitData W (Gen.Key E) (Gen.Data E) (lens W E).2 ++ post
    ∧ drop (q + adv + Z.to_nat (lens W E).1) mem
      = Gen.EmitData W (Gen.Key E) (Gen.Data E) (lens W E).2 ++ post
    ∧ (q + adv + Z.to_nat (wrap32 ((lens W E).1 + (lens W E).2)))%nat
      = length (pre ++ item_bytes W E).
Proof.
  intros [Hok Hh] -> Hsize. unfold lens.
  pose proof (λ rest, m_lengths W R ok Hm _ _ rest Hok) as Hl.
  destruct (m_key_len W R ok Hm _ _ Hok) as [Hk0 Hk].
  destruct (m_data_len W R ok Hm _ _ Hok) as [Hd0 Hd].
  unfold item_bytes in *.
  destruct (Gen.EmitKeyDataLength W (Gen.Key E) (Gen.Data E)) as [lb L].
  cbn [fst snd] in *.
  exists (length lb). cbv zeta.
  rewrite !length_app, length_le_bytes in Hsize.
  split; [|split; [|split; [|split]]].
  - rewrite <-!(assoc_L (++)). rewrite readNext_field.
    change (256 ^ Z.of_nat 4) with (2 ^ 32).
    rewrite Hh. by rewrite (wrap32_idemp _ : _ mod 2 ^ 32 = _).
  - rewrite <-!(assoc_L (++)), (assoc_L (++) pre).
    rewrite drop_app_length' by (by rewrite length_app, length_le_bytes).
    apply Hl.
  - rewrite <-!(assoc_L (++)), (assoc_L (++) pre), (assoc_L (++) (pre ++ _)).
    rewrite drop_app_length'; [done|].
    by rewrite !length_app, length_le_bytes.
  - rewrite <-!(assoc_L (++)), (assoc_L (++) pre), (assoc_L (++) (pre ++ _)),
      (assoc_L (++) ((pre ++ _) ++ _)).
    rewrite drop_app_length'; [done|].
    rewrite !length_app, length_le_bytes. lia.
  - rewrite !length_app, length_le_bytes, wrap32_small by lia. lia.
Qed.
End EntryFacts.

(** ** Walking a chain in [find] *)

Section FindLoop.
Context {I J K IK D : Type} `{!Gen.Info I K D} `{!Tbl.Info J IK K D}.
Implicit Types (E : Gen.Item K D) (mem pre post : list byte).
Variables (W : I) (R : J) (ok : K → D → Prop).
Hypothesis Hm : matching W R ok.

Lemma find_loop_step (P : J) (IKey : IK) (h : Z) (n : nat) E pre post mem :
  sound W ok E → mem = pre ++ item_bytes W E ++ post →
  Z.of_nat (length mem) < 2 ^ 32 →
  ∃ base : nat,
    drop base mem
    = Gen.EmitKey W (Gen.Key E) (lens W E).1
        ++ Gen.EmitData W (Gen.Key E) (Gen.Data E) (lens W E).2 ++ post
    ∧ drop (base + Z.to_nat (lens W E).1) mem
      = Gen.EmitData W (Gen.Key E) (Gen.Data E) (lens W E).2 ++ post
    ∧ Tbl.find_loop mem P IKey h (S n) (length pre)
      = if negb (Gen.Hash E =? h)
        then Tbl.find_loop mem P IKey h n (length (pre ++ item_bytes W E))
        else if negb (Tbl.EqualKey P (Tbl.ReadKey P (drop base mem) (lens W E).1) IKey)
        then Tbl.find_loop mem P IKey h n (length (pre ++ item_bytes W E))
        else Some {| Tbl.it_Key := Some (Tbl.ReadKey P (drop base mem) (lens W E).1);
                     Tbl.it_Data := Some (base + Z.to_nat (lens W E).1)%nat;
                     Tbl.it_Len := (lens W E).2;
                     Tbl.it_InfoObj := Some P |}.
Proof.
  intros Hs Hmem Hsize.
  destruct (item_at W R ok Hm E pre post mem Hs Hmem Hsize)
    as (adv & Hread & Hlen & Hkey & Hdata & Hnext).
  cbv zeta in *.
  exists (length pre + 4 + adv)%nat.
  split; [done|]. split; [done|].
  cbn [Tbl.find_loop]. rewrite Hread. cbn [mbind option_bind].
  rewrite Hlen. cbn [fst snd]. rewrite Hnext. done.
Qed.

Lemma chain_bytes_cons E Es :
  chain_bytes W (E :: Es) = item_bytes W E ++ chain_bytes W Es.
Proof. done. Qed.

Lemma find_loop_miss (k : K) (h : Z) mem Es : ∀ pre post,
  Forall (sound W ok) Es → mem = pre ++ chain_bytes W Es ++ post →
  Z.of_nat (length mem) < 2 ^ 32 →
  Forall (λ E, Gen.Key E ≠ k) Es →
  Tbl.find_loop mem R (Tbl.GetInternalKey R k) h (length Es) (length pre)
  = Some Tbl.iterator_end.
Proof.
  induction Es as [|E Es IH]; intros pre post Hs Hmem Hsize Hk; [done|].
  apply Forall_cons in Hs as [HsE Hs]. apply Forall_cons in Hk as [HkE Hk].
  rewrite chain_bytes_cons, <-(assoc_L (++)) in Hmem.
  change (length (E :: Es)) with (S (length Es)).
  destruct (find_loop_step R (Tbl.GetInternalKey R k) h (length Es) E pre
              (chain_bytes W Es ++ post) mem HsE Hmem Hsize)
    as (base & Hbase & _ & ->).
  assert (Hnext : Tbl.find_loop mem R (Tbl.GetInternalKey R k) h (length Es)
                    (length (pre ++ item_bytes W E)) = Some Tbl.iterator_end).
  { apply (IH _ post); [done| |done|done]. by rewrite <-(assoc_L (++)). }
  rewrite Hnext, Hbase.
  destruct (negb (Gen.Hash E =? h)); [done|].
  destruct (Tbl.EqualKey R _ _) eqn:Heq; [|done].
  destruct HsE as [HokE _].
  apply (m_equal W R ok Hm _ _ _ _ HokE) in Heq. done.
Qed.

Lemma find_loop_hit (k : K) mem Es : ∀ pre post,
  Forall (sound W ok) Es → mem = pre ++ chain_bytes W Es ++ post →
  Z.of_nat (length mem) < 2 ^ 32 →
  (∃ E, E ∈ Es ∧ Gen.Key E = k) →
  ∃ it E,
    Tbl.find_loop mem R (Tbl.GetInternalKey R k)
      (wrap32 (Tbl.ComputeHash R (Tbl.GetInternalKey R k)))
      (length Es) (length pre) = Some it
    ∧ E ∈ Es ∧ Gen.Key E = k
    ∧ Tbl.iterator_eq it Tbl.iterator_end = false
    ∧ Tbl.deref mem it = Some (Gen.Data E).
Proof.
  induction Es as [|E Es IH]; intros pre post Hs Hmem Hsize (E0 & HE0 & HkE0).
  { by apply elem_of_nil in HE0. }
  apply Forall_cons in Hs as [HsE Hs].
  rewrite chain_bytes_cons, <-(assoc_L (++)) in Hmem.
  set (h := wrap32 (Tbl.ComputeHash R (Tbl.GetInternalKey R k))).
  change (length (E :: Es)) with (S (length Es)).
  destruct (find_loop_step R (Tbl.GetInternalKey R k) h (length Es) E pre
              (chain_bytes W Es ++ post) mem HsE Hmem Hsize)
    as (base & Hbase & Hdata & ->).
  destruct HsE as [HokE HhE].
  pose proof (m_equal W R ok Hm _ _ (Gen.EmitData W (Gen.Key E) (Gen.Data E)
                (lens W E).2 ++ chain_bytes W Es ++ post) k HokE) as Heq.
  cbv zeta in Heq. fold (lens W E) in Heq. rewrite <-Hbase in Heq.
  assert (Hrec : Gen.Key E ≠ k →
    ∃ it E1, Tbl.find_loop mem R (Tbl.GetInternalKey R k) h (length Es)
               (length (pre ++ item_bytes W E)) = Some it
      ∧ E1 ∈ E :: Es ∧ Gen.Key E1 = k
      ∧ Tbl.iterator_eq it Tbl.iterator_end = false
      ∧ Tbl.deref mem it = Some (Gen.Data E1)).
  { intros Hne. destruct (IH (pre ++ item_bytes W E) post) as (it & E1 & ? & ? & ?);
      [done|by rewrite <-(assoc_L (++))|done| |].
    - exists E0. split; [|done].
      apply elem_of_cons in HE0 as [->|?]; [done|done].
    - exists it, E1. split; [done|]. split; [by right|done]. }
  destruct (Gen.Hash E =? h) eqn:Hhash; cbn [negb].
  - destruct (Tbl.EqualKey R _ _) eqn:Hkey; cbn [negb].
    + assert (Gen.Key E = k) by (by apply Heq). eexists _, E. split; [done|].
      split; [by left|]. split; [done|]. split; [done|].
      unfold Tbl.deref. cbn [Tbl.it_Key Tbl.it_Data Tbl.it_InfoObj Tbl.it_Len
                               mbind option_bind].
      rewrite Hdata, Hbase. f_equal.
      apply (m_data W R ok Hm _ _ _ _ HokE).
    + apply Hrec. intros Hk. by apply Heq in Hk.
  - apply Hrec. intros Hk. apply Z.eqb_neq in Hhash. apply Hhash.
    rewrite HhE, Hk. subst h. symmetry.
    rewrite <-Hk. apply (m_hash W R ok Hm _ _ HokE).
Qed.
End FindLoop.

(** ** The emitted stream as a whole *)

Section Emitted.
Context {I K D : Type} `{!Gen.Info I K D}.
Implicit Types (B : Gen.Bucket K D) (Bs : list (Gen.Bucket K D)).
Variables (W : I) (g g' : Gen.Generator K D) (Out Out' : raw_ostream) (off : Z).
Hypothesis Hemit : Gen.Emit g Out W = Some (off, g', Out').
Hypothesis Hsize : tell Out' < 2 ^ 32.

Lemma align_up (T : Z) :
  0 ≤ T →
  (T + (- T) mod 4) mod 4 = 0
  ∧ 0 ≤ (- T) mod 4 < 4
  ∧ ∀ m, m mod 4 = 0 → T ≤ m → T + (- T) mod 4 ≤ m.
Proof. intros HT. repeat split; try intros m Hm Hle; Z.div_mod_to_equations; lia. Qed.

Lemma emitted_layout :
  ∃ pad : list byte,
    Out' = Out ++ payload_bytes W (Gen.Buckets g) ++ pad ++ directory_bytes g'
    ∧ Forall (λ b, b = 0) pad
    ∧ (length pad < 4)%nat
    ∧ off = tell (Out ++ payload_bytes W (Gen.Buckets g) ++ pad)
    ∧ off mod 4 = 0
    ∧ ∀ m, m mod 4 = 0 →
        tell (Out ++ payload_bytes W (Gen.Buckets g)) ≤ m → off ≤ m.
Proof.
  destruct (Emit_spec W g Out off g' Out' Hemit) as (_ & _ & _ & Hoff & HOut).
  cbv zeta in *.
  set (P := payload_bytes W (Gen.Buckets g)) in *.
  set (T := tell (Out ++ P)) in *.
  assert (HT : 0 ≤ T) by (unfold T, tell; lia).
  destruct (align_up T HT) as (Hal & Hn & Hmin).
  assert (HTlt : T < 2 ^ 32).
  { revert Hsize. rewrite HOut. unfold T, tell. rewrite !length_app. lia. }
  rewrite (wrap32_small T) in Hoff, HOut by lia.
  assert (HTle : T + (- T) mod 4 ≤ tell Out').
  { rewrite HOut. clear Hmin Hoff HOut. unfold T, tell in *.
    rewrite !length_app, length_replicate in *. lia. }
  rewrite wrap32_small in Hoff by lia.
  exists (replicate (Z.to_nat ((- T) mod 4)) 0).
  split; [done|]. split; [apply Forall_replicate; done|].
  split; [rewrite length_replicate; lia|].
  split; [|split; [by rewrite Hoff|by rewrite Hoff]].
  rewrite Hoff. clear -Hn. unfold T, tell in *.
  rewrite !length_app, ?length_replicate in *. lia.
Qed.

(** Cell [i] of the directory holds the offset [Emit] recorded. *)
Lemma directory_cell (i : nat) B' :
  Gen.Buckets g' !! i = Some B' →
  readNext 4 Out' (Z.to_nat off + 8 + 4 * i)%nat
  = Some (wrap32 (Gen.Off B'), (Z.to_nat off + 8 + 4 * i + 4)%nat).
Proof.
  intros Hi. destruct emitted_layout as (pad & HOut & _ & _ & Hoff & _).
  unfold directory_bytes in HOut.
  rewrite !(assoc_L (++)) in HOut.
  rewrite <-(app_nil_r (_ ++ (Gen.Buckets g' ≫= _))) in HOut.
  rewrite <-!(assoc_L (++) _ (Gen.Buckets g' ≫= _)) in HOut.
  rewrite HOut.
  replace (Z.to_nat off + 8)%nat
    with (length ((((Out ++ payload_bytes W (Gen.Buckets g)) ++ pad)
                    ++ le_bytes 4 (Gen.NumBuckets g'))
                    ++ le_bytes 4 (Gen.NumEntries g'))).
  - by apply readNext_cell.
  - rewrite Hoff. unfold tell. rewrite !length_app, !length_le_bytes. lia.
Qed.

Lemma directory_header :
  readNext 4 Out' (Z.to_nat off)
  = Some (wrap32 (Gen.NumBuckets g), (Z.to_nat off + 4)%nat)
  ∧ readNext 4 Out' (Z.to_nat off + 4)%nat
    = Some (wrap32 (Gen.NumEntries g), (Z.to_nat off + 4 + 4)%nat).
Proof.
  destruct (Emit_spec W g Out off g' Out' Hemit) as (_ & HNB & HNE & _).
  destruct emitted_layout as (pad & HOut & _ & _ & Hoff & _).
  unfold directory_bytes in HOut. rewrite HNB, HNE in HOut.
  set (P := payload_bytes W (Gen.Buckets g)) in *.
  set (cells := Gen.Buckets g' ≫= λ B, le_bytes 4 (Gen.Off B)) in *.
  split.
  - apply (readNext_at 4 Out' _ (Out ++ P ++ pad) (Gen.NumBuckets g)
             (le_bytes 4 (Gen.NumEntries g) ++ cells)).
    + by rewrite HOut, <-!(assoc_L (++)).
    + rewrite Hoff. unfold tell. by rewrite Nat2Z.id.
  - apply (readNext_at 4 Out' _ ((Out ++ P ++ pad) ++ le_bytes 4 (Gen.NumBuckets g))
             (Gen.NumEntries g) cells).
    + by rewrite HOut, <-!(assoc_L (++)).
    + rewrite Hoff. unfold tell.
      by rewrite Nat2Z.id, (length_app (Out ++ P ++ pad)), length_le_bytes.
Qed.

(** A chain sits in the stream where the directory says. *)
Lemma block_at (i : nat) B :
  Gen.Buckets g !! i = Some B → Gen.Head B ≠ [] →
  ∃ B' pre post,
    Gen.Buckets g' !! i = Some B'
    ∧ Gen.Off B' = Z.of_nat (length pre) ∧ Gen.Off B' ≠ 0
    ∧ pre = Out ++ payload_bytes W (take i (Gen.Buckets g))
    ∧ Out' = pre ++ le_bytes 2 (Gen.Length B)
                 ++ chain_bytes W (Gen.Head B) ++ post.
Proof.
  intros Hi Hne.
  destruct (Emit_spec W g Out off g' Out' Hemit) as (Hpay & _).
  destruct emitted_layout as (pad & HOut & _).
  destruct (emit_payload_spec W _ _ _ _ Hpay) as (_ & _ & Hcells).
  destruct (Hcells i B Hi) as (B' & HB' & _ & _ & _ & Hoff).
  destruct (Hoff Hne) as (HoffB & Hnz & _).
  assert (Hsplit : payload_bytes W (Gen.Buckets g)
                   = payload_bytes W (take i (Gen.Buckets g))
                       ++ block_bytes W B
                       ++ payload_bytes W (drop (S i) (Gen.Buckets g))).
  { rewrite <-(take_drop_middle _ _ _ Hi) at 1.
    unfold payload_bytes. by rewrite bind_app, bind_cons. }
  assert (Hblock : block_bytes W B
                   = le_bytes 2 (Gen.Length B) ++ chain_bytes W (Gen.Head B)).
  { unfold block_bytes. by destruct (Gen.Head B). }
  exists B', (Out ++ payload_bytes W (take i (Gen.Buckets g))),
    (payload_bytes W (drop (S i) (Gen.Buckets g)) ++ pad ++ directory_bytes g').
  split; [done|].
  assert (Hfit : tell (Out ++ payload_bytes W (take i (Gen.Buckets g))) < 2 ^ 32).
  { rewrite HOut, Hsplit in Hsize. unfold tell in *.
    rewrite !length_app in *. lia. }
  rewrite wrap32_small in HoffB by (unfold tell in *; lia).
  split; [done|]. split; [done|]. split; [done|].
  rewrite HOut, Hsplit, Hblock. by rewrite <-!(assoc_L (++)).
Qed.

(** An empty chain keeps the offset it had. *)
Lemma empty_cell (i : nat) B :
  Gen.Buckets g !! i = Some B → Gen.Head B = [] →
  ∃ B', Gen.Buckets g' !! i = Some B' ∧ Gen.Off B' = Gen.Off B.
Proof.
  intros Hi He.
  destruct (Emit_spec W g Out off g' Out' Hemit) as (Hpay & _).
  destruct (emit_payload_spec W _ _ _ _ Hpay) as (_ & _ & Hcells).
  destruct (Hcells i B Hi) as (B' & HB' & _ & _ & Hoff & _).
  exists B'. split; [done|]. by apply Hoff.
Qed.
End Emitted.

(** ** Walking the payload with the iterators *)

Section Iterate.
Context {I J K IK D : Type} `{!Gen.Info I K D} `{!Tbl.Info J IK K D}.
Implicit Types (E : Gen.Item K D) (B : Gen.Bucket K D) (mem pre post : list byte).
Variables (W : I) (R : J) (ok : K → D → Prop).
Hypothesis Hm : matching W R ok.

(** The cursor on an entry: at a bucket boundary ([n = 0]) the header
    [hdr] with the count [m] lies before it, otherwise [m = n] entries
    of the bucket are left and [hdr] is empty. *)
Lemma cursor_at E pre hdr post mem (n m left : Z) :
  sound W ok E → mem = (pre ++ hdr) ++ item_bytes W E ++ post →
  Z.of_nat (length mem) < 2 ^ 32 →
  (n = 0 ∧ hdr = le_bytes 2 m ∧ 0 < m < 2 ^ 16) ∨ (n ≠ 0 ∧ hdr = [] ∧ m = n) →
  left ≠ 0 →
  let c := {| Tbl.Ptr := Some (length pre); Tbl.NumItemsInBucketLeft := n;
              Tbl.NumEntriesLeft := left; Tbl.c_InfoObj := Some R |} in
  ∃ base : nat,
    Tbl.cursor_entry mem c = Some (base, lens W E)
    ∧ drop base mem
      = Gen.EmitKey W (Gen.Key E) (lens W E).1
          ++ Gen.EmitData W (Gen.Key E) (Gen.Data E) (lens W E).2 ++ post
    ∧ drop (base + Z.to_nat (lens W E).1) mem
      = Gen.EmitData W (Gen.Key E) (Gen.Data E) (lens W E).2 ++ post
    ∧ Tbl.cursor_next mem c
      = Some {| Tbl.Ptr := Some (length ((pre ++ hdr) ++ item_bytes W E));
                Tbl.NumItemsInBucketLeft := m - 1;
                Tbl.NumEntriesLeft := left - 1;
                Tbl.c_InfoObj := Some R |}.
Proof.
  intros Hs Hmem Hsize Hcase Hleft c.
  destruct (item_at W R ok Hm E (pre ++ hdr) post mem Hs Hmem Hsize)
    as (adv & _ & Hlen & Hkey & Hdata & Hnext).
  cbv zeta in *.
  exists (length (pre ++ hdr) + 4 + adv)%nat.
  assert (Hl0 : (left =? 0) = false) by by apply Z.eqb_neq.
  unfold Tbl.cursor_entry, Tbl.cursor_next, c.
  cbn [Tbl.Ptr Tbl.NumItemsInBucketLeft Tbl.NumEntriesLeft Tbl.c_InfoObj
       mbind option_bind].
  destruct Hcase as [(-> & -> & Hm16)|(Hn & -> & ->)].
  - cbn [Z.eqb].
    rewrite (readNext_at 2 mem (length pre) pre m (item_bytes W E ++ post))
      by (by rewrite ?Hmem, <-?(assoc_L (++))).
    cbn [mbind option_bind].
    change (256 ^ Z.of_nat 2) with (2 ^ 16). rewrite Z.mod_small by lia.
    replace (length pre + 2 + 4)%nat with (length (pre ++ le_bytes 2 m) + 4)%nat
      by (rewrite length_app, length_le_bytes; lia).
    rewrite Hlen. cbn [fst snd]. rewrite Hl0.
    destruct (m =? 0) eqn:Hm0; [apply Z.eqb_eq in Hm0; lia|].
    rewrite Hnext. done.
  - apply Z.eqb_neq in Hn. rewrite Hn.
    cbn [mbind option_bind].
    replace (length pre + 4)%nat with (length (pre ++ []) + 4)%nat
      by (by rewrite app_nil_r).
    rewrite Hlen. cbn [fst snd]. rewrite Hn, Hl0, Hnext. done.
Qed.

Section Collect.
Context {A : Type}.
Variable star : list byte → Tbl.cursor J → option A.
Variable f : Gen.Item K D → A.
Hypothesis Hstar : ∀ mem (c : Tbl.cursor J) (base : nat) E post,
  sound W ok E →
  Tbl.cursor_entry mem c = Some (base, lens W E) →
  Tbl.c_InfoObj c = Some R →
  drop base mem
  = Gen.EmitKey W (Gen.Key E) (lens W E).1
      ++ Gen.EmitData W (Gen.Key E) (Gen.Data E) (lens W E).2 ++ post →
  drop (base + Z.to_nat (lens W E).1) mem
  = Gen.EmitData W (Gen.Key E) (Gen.Data E) (lens W E).2 ++ post →
  star mem c = Some (f E).

Lemma collect_step E pre hdr post mem (n m left : Z) (fuel : nat) :
  sound W ok E → mem = (pre ++ hdr) ++ item_bytes W E ++ post →
  Z.of_nat (length mem) < 2 ^ 32 →
  (n = 0 ∧ hdr = le_bytes 2 m ∧ 0 < m < 2 ^ 16) ∨ (n ≠ 0 ∧ hdr = [] ∧ m = n) →
  left ≠ 0 →
  Tbl.collect star mem (S fuel)
    {| Tbl.Ptr := Some (length pre); Tbl.NumItemsInBucketLeft := n;
       Tbl.NumEntriesLeft := left; Tbl.c_InfoObj := Some R |}
  = vs ← Tbl.collect star mem fuel
           {| Tbl.Ptr := Some (length ((pre ++ hdr) ++ item_bytes W E));
              Tbl.NumItemsInBucketLeft := m - 1;
              Tbl.NumEntriesLeft := left - 1;
              Tbl.c_InfoObj := Some R |};
    Some (f E :: vs).
Proof.
  intros Hs Hmem Hsize Hcase Hleft.
  destruct (cursor_at E pre hdr post mem n m left Hs Hmem Hsize Hcase Hleft)
    as (base & Hentry & Hkey & Hdata & Hnext).
  cbv zeta in *. cbn [Tbl.collect].
  unfold Tbl.cursor_eq at 1. cbn [Tbl.NumEntriesLeft Tbl.cursor_end].
  destruct (left =? 0) eqn:Hl0; [apply Z.eqb_eq in Hl0; done|].
  rewrite (Hstar _ _ _ _ _ Hs Hentry eq_refl Hkey Hdata).
  cbn [mbind option_bind]. rewrite Hnext. done.
Qed.

Lemma collect_nil mem (fuel : nat) (p : option ptr) (n : Z) (info : option J) :
  Tbl.collect star mem fuel
    {| Tbl.Ptr := p; Tbl.NumItemsInBucketLeft := n;
       Tbl.NumEntriesLeft := 0; Tbl.c_InfoObj := info |} = Some [].
Proof. by destruct fuel. Qed.

(** The entries left in the current chain. *)
Lemma collect_chain mem tail (Es : list (Gen.Item K D)) :
  ∀ pre (fuel rest : nat),
  mem = pre ++ chain_bytes W Es ++ tail →
  Z.of_nat (length mem) < 2 ^ 32 →
  Forall (sound W ok) Es →
  Tbl.collect star mem (length Es + fuel)
    {| Tbl.Ptr := Some (length pre);
       Tbl.NumItemsInBucketLeft := Z.of_nat (length Es);
       Tbl.NumEntriesLeft := Z.of_nat (length Es + rest);
       Tbl.c_InfoObj := Some R |}
  = vs ← Tbl.collect star mem fuel
           {| Tbl.Ptr := Some (length (pre ++ chain_bytes W Es));
              Tbl.NumItemsInBucketLeft := 0;
              Tbl.NumEntriesLeft := Z.of_nat rest;
              Tbl.c_InfoObj := Some R |};
    Some ((f <$> Es) ++ vs).
Proof.
  induction Es as [|E Es IH]; intros pre fuel rest Hmem Hsize Hs.
  - change (chain_bytes W []) with (@nil byte). rewrite app_nil_r.
    cbn [length Nat.add fmap list_fmap app].
    by destruct (Tbl.collect _ _ _ _).
  - apply Forall_cons in Hs as [HsE Hs].
    rewrite chain_bytes_cons, <-(assoc_L (++)) in Hmem.
    change (length (E :: Es) + fuel)%nat with (S (length Es + fuel)).
    rewrite (collect_step E pre [] (chain_bytes W Es ++ tail) mem
               (Z.of_nat (length (E :: Es))) (Z.of_nat (length (E :: Es)))
               (Z.of_nat (length (E :: Es) + rest)) (length Es + fuel));
      [|done|by rewrite app_nil_r|done|right; cbn [length]; split; [lia|done]
       |cbn [length]; lia].
    rewrite app_nil_r.
    replace (Z.of_nat (length (E :: Es)) - 1) with (Z.of_nat (length Es))
      by (cbn [length]; lia).
    replace (Z.of_nat (length (E :: Es) + rest) - 1)
      with (Z.of_nat (length Es + rest)) by (cbn [length]; lia).
    rewrite (IH (pre ++ item_bytes W E) fuel rest);
      [|by rewrite <-(assoc_L (++))|done|done].
    rewrite chain_bytes_cons, (assoc_L (++)).
    by destruct (Tbl.collect _ _ _ _).
Qed.

(** All the chains from a bucket boundary on. *)
Lemma collect_all mem post (Bs : list (Gen.Bucket K D)) :
  ∀ pre (fuel : nat),
  mem = pre ++ payload_bytes W Bs ++ post →
  Z.of_nat (length mem) < 2 ^ 32 →
  Forall (sound W ok) (items Bs) →
  Forall (λ B, Gen.Length B = Z.of_nat (length (Gen.Head B))
               ∧ Gen.Length B < 2 ^ 16) Bs →
  (length (items Bs) ≤ fuel)%nat →
  Tbl.collect star mem fuel
    {| Tbl.Ptr := Some (length pre);
       Tbl.NumItemsInBucketLeft := 0;
       Tbl.NumEntriesLeft := Z.of_nat (length (items Bs));
       Tbl.c_InfoObj := Some R |}
  = Some (f <$> items Bs).
Proof.
  induction Bs as [|B Bs IH]; intros pre fuel Hmem Hsize Hs HB Hfuel.
  { apply collect_nil. }
  apply Forall_cons in HB as [[HlenB Hfit] HB].
  rewrite items_cons in Hs, Hfuel |- *.
  apply Forall_app in Hs as [HsH Hs].
  rewrite payload_bytes_cons in Hmem. unfold block_bytes in Hmem.
  destruct (Gen.Head B) as [|E Es] eqn:HhB.
  { by apply IH. }
  apply Forall_cons in HsH as [HsE HsH].
  rewrite length_app in Hfuel |- *. cbn [length] in Hfuel, HlenB |- *.
  destruct fuel as [|fuel]; [lia|].
  rewrite chain_bytes_cons, <-!(assoc_L (++)), (assoc_L (++) pre) in Hmem.
  rewrite (collect_step E pre (le_bytes 2 (Gen.Length B))
             (chain_bytes W Es ++ payload_bytes W Bs ++ post) mem 0
             (Gen.Length B) _ fuel);
    [|done|done|done|left; split; [done|split; [done|lia]]|lia].
  replace (Gen.Length B - 1) with (Z.of_nat (length Es)) by lia.
  replace (Z.of_nat (S (length Es) + length (items Bs)) - 1)
    with (Z.of_nat (length Es + length (items Bs))) by lia.
  replace fuel with (length Es + (fuel - length Es))%nat by lia.
  rewrite (collect_chain mem (payload_bytes W Bs ++ post) Es
             ((pre ++ le_bytes 2 (Gen.Length B)) ++ item_bytes W E)
             (fuel - length Es) (length (items Bs)));
    [|by rewrite Hmem, <-!(assoc_L (++))|done|done].
  rewrite (IH (((pre ++ le_bytes 2 (Gen.Length B)) ++ item_bytes W E)
                 ++ chain_bytes W Es) (fuel - length Es)%nat);
    [|by rewrite Hmem, <-!(assoc_L (++))|done|done|done|lia].
  cbn [mbind option_bind]. by rewrite fmap_app.
Qed.
End Collect.

Lemma key_deref_at mem (c : Tbl.cursor J) (base : nat) E post :
  sound W ok E →
  Tbl.cursor_entry mem c = Some (base, lens W E) →
  Tbl.c_InfoObj c = Some R →
  drop base mem
  = Gen.EmitKey W (Gen.Key E) (lens W E).1
      ++ Gen.EmitData W (Gen.Key E) (Gen.Data E) (lens W E).2 ++ post →
  drop (base + Z.to_nat (lens W E).1) mem
  = Gen.EmitData W (Gen.Key E) (Gen.Data E) (lens W E).2 ++ post →
  Tbl.key_deref mem c = Some (Gen.Key E).
Proof.
  intros [HokE _] Hentry Hinfo Hkey _. unfold Tbl.key_deref.
  rewrite Hentry, Hinfo. cbn [mbind option_bind fst]. rewrite Hkey.
  f_equal. apply (m_key W R ok Hm _ _ _ HokE).
Qed.

Lemma data_deref_at mem (c : Tbl.cursor J) (base : nat) E post :
  sound W ok E →
  Tbl.cursor_entry mem c = Some (base, lens W E) →
  Tbl.c_InfoObj c = Some R →
  drop base mem
  = Gen.EmitKey W (Gen.Key E) (lens W E).1
      ++ Gen.EmitData W (Gen.Key E) (Gen.Data E) (lens W E).2 ++ post →
  drop (base + Z.to_nat (lens W E).1) mem
  = Gen.EmitData W (Gen.Key E) (Gen.Data E) (lens W E).2 ++ post →
  Tbl.data_deref mem c = Some (Gen.Data E).
Proof.
  intros [HokE _] Hentry Hinfo Hkey Hdata. unfold Tbl.data_deref.
  rewrite Hentry, Hinfo. cbn [mbind option_bind fst snd]. rewrite Hkey, Hdata.
  f_equal. apply (m_data W R ok Hm _ _ _ _ HokE).
Qed.

Lemma zip_key_data (l : list (Gen.Item K D)) :
  zip (Gen.Key <$> l) (Gen.Data <$> l) = (λ E, (Gen.Key E, Gen.Data E)) <$> l.
Proof. induction l as [|E l IH]; [done|]. cbn. by rewrite IH. Qed.

Lemma entries_pairs (kvs : list (K * D)) :
  (λ E, (Gen.Key E, Gen.Data E)) <$> (entry W <$> kvs) = kvs.
Proof. induction kvs as [|[k d] kvs IH]; [done|]. cbn. by rewrite IH. Qed.
End Iterate.

(** ** A reader over the table [Emit] wrote for [build W kvs] *)

Section RoundTrip.
Context {I J K IK D : Type} `{!Gen.Info I K D} `{!Tbl.Info J IK K D}.
Implicit Types (E : Gen.Item K D) (B : Gen.Bucket K D).
Variables (W : I) (R : J) (ok : K → D → Prop).
Hypothesis Hm : matching W R ok.
Variables (kvs : list (K * D)) (Out Out' : raw_ostream) (off : Z)
          (g' : Gen.Generator K D).
Hypothesis Hcount : Z.of_nat (length kvs) < 2 ^ 29.
Hypothesis Hok : Forall (λ kv, ok kv.1 kv.2) kvs.
Hypothesis Hpre : Out ≠ [].
Hypothesis Hemit : Gen.Emit (Gen.build W kvs) Out W = Some (off, g', Out').
Hypothesis Hsize : tell Out' < 2 ^ 32.
Hypothesis Hfit : lengths_fit (Gen.build W kvs) = true.

Lemma fit_lookup (g : Gen.Generator K D) (i : nat) B :
  lengths_fit g = true → Gen.Buckets g !! i = Some B → Gen.Length B < 2 ^ 16.
Proof.
  unfold lengths_fit. intros Hall Hi.
  apply list_elem_of_lookup_2, list_elem_of_In in Hi.
  rewrite forallb_forall in Hall. apply Hall in Hi. by apply Z.ltb_lt in Hi.
Qed.

Lemma built_items E :
  E ∈ items (Gen.Buckets (Gen.build W kvs)) →
  ∃ kv, kv ∈ kvs ∧ E = entry W kv ∧ sound W ok E.
Proof.
  destruct (build_ok W kvs Hcount) as (_ & Hperm & _).
  rewrite Hperm. intros (kv & -> & Hkv)%list_elem_of_fmap.
  exists kv. split; [done|]. split; [done|].
  apply entry_sound. rewrite Forall_forall in Hok. by apply Hok.
Qed.

Lemma built_chain (i : nat) B :
  Gen.Buckets (Gen.build W kvs) !! i = Some B → Forall (sound W ok) (Gen.Head B).
Proof.
  intros Hi. apply Forall_forall. intros E HE.
  destruct (built_items E) as (kv & _ & _ & Hs); [|done].
  apply list_elem_of_bind. exists B. split; [done|].
  by eapply list_elem_of_lookup_2.
Qed.

Lemma off_pos : 0 < off < 2 ^ 32 ∧ Z.land off 3 = 0.
Proof.
  destruct (emitted_layout W _ _ _ _ _ Hemit Hsize)
    as (pad & HOut & _ & _ & Hoff & Hal & _).
  assert (0 < length Out)%nat by (destruct Out; [done|simpl; lia]).
  split.
  - revert Hsize. rewrite HOut, Hoff. unfold tell. rewrite !length_app. lia.
  - change 3 with (Z.ones 2). rewrite Z.land_ones by lia. done.
Qed.

(** The reader [Create] makes at the returned offset. *)
Lemma create_reader :
  Tbl.Create (Z.to_nat off) Out' R
  = Some {| Tbl.NumBuckets := Gen.NumBuckets (Gen.build W kvs);
            Tbl.NumEntries := Z.of_nat (length kvs);
            Tbl.Buckets := (Z.to_nat off + 4 + 4)%nat;
            Tbl.Base := Out';
            Tbl.InfoObj := R |}.
Proof.
  destruct off_pos as [Hoff Hal].
  destruct (build_ok W kvs Hcount) as (((e & He & HNB) & _) & _ & HNE).
  destruct (directory_header W _ _ _ _ _ Hemit Hsize) as [H1 H2].
  unfold Tbl.Create.
  assert (Hlt : (0 <? Z.to_nat off)%nat = true) by (apply Nat.ltb_lt; lia).
  rewrite Hlt, Z2Nat.id, Hal by lia. cbn [negb Z.eqb].
  rewrite H1. cbn [mbind option_bind]. rewrite H2. cbn [mbind option_bind].
  assert (2 ^ e ≤ 2 ^ 30) by (apply Z.pow_le_mono_r; lia).
  rewrite !wrap32_small by lia. by rewrite HNE.
Qed.

(** The chain [find] walks for a key: the one its hash selects. *)
Lemma find_cases (k : K) :
  let t := {| Tbl.NumBuckets := Gen.NumBuckets (Gen.build W kvs);
              Tbl.NumEntries := Z.of_nat (length kvs);
              Tbl.Buckets := (Z.to_nat off + 4 + 4)%nat;
              Tbl.Base := Out';
              Tbl.InfoObj := R |} in
  let h := wrap32 (Tbl.ComputeHash R (Tbl.GetInternalKey R k)) in
  ∃ (i : nat) B,
    Gen.Buckets (Gen.build W kvs) !! i = Some B
    ∧ Z.land h (Gen.NumBuckets (Gen.build W kvs) - 1) = Z.of_nat i
    ∧ (Gen.Head B = [] → Tbl.find t k None = Some Tbl.iterator_end)
    ∧ (Gen.Head B ≠ [] →
       ∃ pre post,
         Out' = pre ++ chain_bytes W (Gen.Head B) ++ post
         ∧ Tbl.find t k None
           = Tbl.find_loop Out' R (Tbl.GetInternalKey R k) h
               (length (Gen.Head B)) (length pre)).
Proof.
  intros t h.
  destruct (build_ok W kvs Hcount) as (((e & He & HNB) & [Hlen Hcells] & _) & _ & _).
  pose proof (index_lt h e ltac:(lia)) as Hidx.
  assert (H30 : 2 ^ e ≤ 2 ^ 30) by (apply Z.pow_le_mono_r; lia).
  assert (H6 : 2 ^ 6 ≤ 2 ^ e) by (apply Z.pow_le_mono_r; lia).
  set (i := Z.to_nat (Z.land h (2 ^ e - 1))).
  destruct (lookup_lt_is_Some_2 (Gen.Buckets (Gen.build W kvs)) i) as [B HB].
  { rewrite Hlen, HNB. subst i. lia. }
  exists i, B. split; [done|]. split; [rewrite HNB; subst i; lia|].
  destruct (Hcells i B HB) as (Hoff0 & HcountB & _).
  assert (Hprobe : Tbl.find t k None
    = '(Offset, _) ← readNext 4 Out' (Z.to_nat off + 8 + 4 * i)%nat;
      if Offset =? 0 then Some Tbl.iterator_end
      else '(Len, Items) ← readNext 2 Out' (Z.to_nat Offset);
           Tbl.find_loop Out' R (Tbl.GetInternalKey R k) h (Z.to_nat Len) Items).
  { unfold Tbl.find, Tbl.find_probe. cbn [snd Tbl.NumBuckets Tbl.Buckets Tbl.Base
      Tbl.InfoObj t]. fold h. rewrite HNB, (wrap32_small (2 ^ e - 1)) by lia.
    fold i. by replace (Z.to_nat off + 4 + 4 + 4 * i)%nat
              with (Z.to_nat off + 8 + 4 * i)%nat by lia. }
  rewrite Hprobe. split.
  - intros Hempty.
    destruct (empty_cell W _ _ _ _ _ Hemit i B HB Hempty) as (B' & HB' & HoffB).
    rewrite (directory_cell W _ _ _ _ _ Hemit Hsize i B' HB').
    cbn [mbind option_bind]. by rewrite HoffB, Hoff0.
  - intros Hne.
    destruct (block_at W _ _ _ _ _ Hemit Hsize i B HB Hne)
      as (B' & pre & post & HB' & HoffB & Hnz & _ & HOut).
    rewrite (directory_cell W _ _ _ _ _ Hemit Hsize i B' HB').
    cbn [mbind option_bind].
    assert (Hpre32 : Z.of_nat (length pre) < 2 ^ 32).
    { revert Hsize. rewrite HOut. unfold tell. rewrite length_app. lia. }
    rewrite wrap32_small by lia.
    destruct (Gen.Off B' =? 0) eqn:Hz; [apply Z.eqb_eq in Hz; done|].
    rewrite HoffB, Nat2Z.id.
    rewrite (readNext_at 2 Out' (length pre) pre (Gen.Length B)
               (chain_bytes W (Gen.Head B) ++ post) HOut eq_refl).
    cbn [mbind option_bind].
    pose proof (fit_lookup _ i B Hfit HB) as Hfit16.
    change (256 ^ Z.of_nat 2) with (2 ^ 16).
    rewrite Z.mod_small by lia. rewrite HcountB, Nat2Z.id.
    exists (pre ++ le_bytes 2 (Gen.Length B)), post.
    split; [by rewrite HOut, <-(assoc_L (++))|].
    by rewrite length_app, length_le_bytes.
Qed.
(** The reader finds every inserted key, with a value inserted for it. *)
Lemma find_hit (k : K) (d : D) :
  (k, d) ∈ kvs →
  ∃ t it d',
    Tbl.Create (Z.to_nat off) Out' R = Some t
    ∧ Tbl.find t k None = Some it
    ∧ Tbl.iterator_eq it Tbl.iterator_end = false
    ∧ Tbl.deref (Tbl.Base t) it = Some d'
    ∧ (k, d') ∈ kvs.
Proof.
  intros Hin. eexists. rewrite create_reader.
  destruct (find_cases k) as (i & B & HB & Hidx & _ & Hwalk). cbv zeta in *.
  destruct (build_ok W kvs Hcount) as ((_ & [_ Hcells] & _) & Hperm & _).
  set (h := wrap32 (Tbl.ComputeHash R (Tbl.GetInternalKey R k))) in *.
  assert (HE0 : entry W (k, d) ∈ items (Gen.Buckets (Gen.build W kvs))).
  { rewrite Hperm. by apply list_elem_of_fmap_2. }
  apply list_elem_of_bind in HE0 as (B0 & HE0 & HB0).
  apply list_elem_of_lookup in HB0 as [j HB0].
  destruct (Hcells j B0 HB0) as (_ & _ & Hall).
  rewrite Forall_forall in Hall. destruct (Hall _ HE0) as [_ Hj].
  assert (Hok0 : ok k d).
  { rewrite Forall_forall in Hok. by apply (Hok (k, d)). }
  assert (Hh : Gen.Hash (entry W (k, d)) = h).
  { symmetry. apply (m_hash W R ok Hm k d Hok0). }
  rewrite Hh, Hidx in Hj. apply Nat2Z.inj in Hj. subst j.
  assert (B0 = B) as -> by congruence.
  assert (Hne : Gen.Head B ≠ []) by (intros Hnil; rewrite Hnil in HE0; by apply elem_of_nil in HE0).
  destruct (Hwalk Hne) as (pre & post & HOut & Hfind).
  destruct (find_loop_hit W R ok Hm k Out' (Gen.Head B) pre post)
    as (it & E1 & Hloop & HE1 & Hk1 & Hnend & Hderef).
  { by eapply built_chain. } { done. } { done. }
  { exists (entry W (k, d)). by split. }
  exists it, (Gen.Data E1). split; [done|].
  split; [by rewrite Hfind|]. split; [done|]. split; [done|].
  destruct (built_items E1) as (kv & Hkv & -> & _).
  { apply list_elem_of_bind. exists B. split; [done|].
    by eapply list_elem_of_lookup_2. }
  destruct kv as [k1 d1]. cbn in Hk1 |- *. by subst k1.
Qed.

(** A key that was not inserted gets the end iterator. *)
Lemma find_miss (k : K) :
  k ∉ kvs.*1 →
  ∃ t,
    Tbl.Create (Z.to_nat off) Out' R = Some t
    ∧ Tbl.find t k None = Some Tbl.iterator_end.
Proof.
  intros Hnot. eexists. rewrite create_reader. split; [done|].
  destruct (find_cases k) as (i & B & HB & Hidx & Hempty & Hwalk). cbv zeta in *.
  destruct (Gen.Head B) as [|E Es] eqn:HhB; [by apply Hempty|].
  destruct (Hwalk ltac:(done)) as (pre & post & HOut & ->).
  rewrite <-HhB in *.
  apply (find_loop_miss W R ok Hm k _ Out' (Gen.Head B) pre post);
    [by eapply built_chain|done|done|].
  apply Forall_forall. intros E1 HE1 Hk.
  destruct (built_items E1) as (kv & Hkv & -> & _).
  { apply list_elem_of_bind. exists B. split; [done|].
    by eapply list_elem_of_lookup_2. }
  apply Hnot. apply list_elem_of_fmap. exists kv. split; [|done].
  by rewrite <-Hk.
Qed.
(** Both iterators walk every entry of the table, in payload order. *)
Lemma iterate_all :
  ∃ t,
    Tbl.CreateIterable (Z.to_nat off) (length Out) Out' R = Some t
    ∧ Tbl.NumEntries (Tbl.base_type t) = Z.of_nat (length kvs)
    ∧ Tbl.keys t = Some (Gen.Key <$> items (Gen.Buckets (Gen.build W kvs)))
    ∧ Tbl.data t = Some (Gen.Data <$> items (Gen.Buckets (Gen.build W kvs))).
Proof.
  eexists. unfold Tbl.CreateIterable. rewrite create_reader.
  cbn [mbind option_bind]. split; [done|]. split; [done|].
  destruct (build_ok W kvs Hcount) as ((_ & [_ Hcells] & _) & Hperm & _).
  destruct (emitted_layout W _ _ _ _ _ Hemit Hsize) as (pad & HOut & _).
  assert (Hn : length (items (Gen.Buckets (Gen.build W kvs))) = length kvs).
  { by rewrite Hperm, length_fmap. }
  assert (HsB : Forall (sound W ok) (items (Gen.Buckets (Gen.build W kvs)))).
  { apply Forall_forall. intros E HE. by destruct (built_items E HE) as (_ & _ & _ & ?). }
  assert (HB : Forall (λ B, Gen.Length B = Z.of_nat (length (Gen.Head B))
                            ∧ Gen.Length B < 2 ^ 16)
                 (Gen.Buckets (Gen.build W kvs))).
  { apply Forall_lookup. intros i B Hi. split.
    - by destruct (Hcells i B Hi) as (_ & ? & _).
    - by eapply fit_lookup. }
  unfold Tbl.keys, Tbl.data, Tbl.cursor_begin.
  cbn [Tbl.base_type Tbl.Payload Tbl.Base Tbl.NumEntries Tbl.InfoObj].
  rewrite Nat2Z.id, <-Hn.
  split.
  - by apply (collect_all W R ok Hm Tbl.key_deref Gen.Key (key_deref_at W R ok Hm)
                Out' (pad ++ directory_bytes g') _ Out).
  - by apply (collect_all W R ok Hm Tbl.data_deref Gen.Data (data_deref_at W R ok Hm)
                Out' (pad ++ directory_bytes g') _ Out).
Qed.
End RoundTrip.

(** ** The integer codec round-trips 32-bit keys and values *)

Ltac unfold_codec :=
  cbn [Tbl.EqualKey Tbl.ReadKey Tbl.ReadData Tbl.GetInternalKey Tbl.GetExternalKey
       Tbl.ComputeHash Tbl.ReadKeyDataLength Gen.ComputeHash Gen.EmitKeyDataLength
       Gen.EmitKey Gen.EmitData IntCodec.reader IntCodec.writer fst snd].

Lemma int_matching (salt : Z) : matching salt salt IntCodec.u32.
Proof.
  assert (Hrd : ∀ v rest, 0 ≤ v < 2 ^ 32 →
            le_value (take (Z.to_nat 4) (le_bytes 4 v ++ rest)) = v).
  { intros v rest Hv. rewrite take_app_length' by done.
    rewrite le_value_le_bytes_4. by apply wrap32_small. }
  split; try done.
  - intros k d rest k' [Hk Hd]. cbv zeta. unfold_codec.
    rewrite (Hrd k rest Hk). apply Z.eqb_eq.
  - intros k d rest [Hk Hd]. cbv zeta. unfold_codec. apply (Hrd k rest Hk).
  - intros k d rest rest' [Hk Hd]. cbv zeta. unfold_codec. apply (Hrd d rest' Hd).
Qed.

(** * The claims *)

Section Claims.
Context {I J K IK D : Type} `{!Gen.Info I K D} `{!Tbl.Info J IK K D}.
Variables (W : I) (R : J) (ok : K → D → Prop).

(** C1 (as amended). After any sequence of [insert] calls and [Emit], a
    reader created at the returned offset over the emitted bytes, with a
    codec matching the write codec, answers [find k] for every inserted
    key [k] with an iterator different from [end()] whose dereference is
    a value that was inserted for [k]: the value of [k] when it was
    inserted with one value only. The sequence is shorter than 2^29, the
    stream is not empty before the payload and stays below 4 GiB, and no
    bucket outgrows its 16-bit count. *)
Theorem find_inserted (kvs : list (K * D)) (Out Out' : raw_ostream)
    (off : Z) (g' : Gen.Generator K D) (k : K) (d : D) :
  matching W R ok →
  Z.of_nat (length kvs) < 2 ^ 29 →
  Forall (λ kv, ok kv.1 kv.2) kvs →
  Out ≠ [] →
  Gen.Emit (Gen.build W kvs) Out W = Some (off, g', Out') →
  tell Out' < 2 ^ 32 →
  lengths_fit (Gen.build W kvs) = true →
  (k, d) ∈ kvs →
  ∃ t it d',
    Tbl.Create (Z.to_nat off) Out' R = Some t
    ∧ Tbl.find t k None = Some it
    ∧ Tbl.iterator_eq it Tbl.iterator_end = false
    ∧ Tbl.deref (Tbl.Base t) it = Some d'
    ∧ (k, d') ∈ kvs.
Proof.
  intros Hm Hn Hok Hpre Hemit Hsize Hfit Hin.
  exact (find_hit W R ok Hm kvs Out Out' off g' Hn Hok Hpre Hemit Hsize Hfit k d Hin).
Qed.

(** C2. For a key that was never inserted, [find] on a reader over the
    emitted bytes returns: it reads inside the mapped bytes, trips no
    assert, and its result is the end iterator. *)
Theorem find_absent (kvs : list (K * D)) (Out Out' : raw_ostream)
    (off : Z) (g' : Gen.Generator K D) (k : K) :
  matching W R ok →
  Z.of_nat (length kvs) < 2 ^ 29 →
  Forall (λ kv, ok kv.1 kv.2) kvs →
  Out ≠ [] →
  Gen.Emit (Gen.build W kvs) Out W = Some (off, g', Out') →
  tell Out' < 2 ^ 32 →
  lengths_fit (Gen.build W kvs) = true →
  k ∉ kvs.*1 →
  ∃ t it,
    Tbl.Create (Z.to_nat off) Out' R = Some t
    ∧ Tbl.find t k None = Some it
    ∧ it = Tbl.iterator_end
    ∧ Tbl.iterator_eq it Tbl.iterator_end = true.
Proof.
  intros Hm Hn Hok Hpre Hemit Hsize Hfit Hnot.
  destruct (find_miss W R ok Hm kvs Out Out' off g' Hn Hok Hpre Hemit Hsize Hfit
              k Hnot) as (t & Ht & Hfind).
  exists t, Tbl.iterator_end. done.
Qed.

(** C4 (as amended). After a sequence of [insert] calls that leaves no
    bucket with more than 65535 entries, so that every count fits the
    16-bit length field, and [Emit], walking the iterable reader from
    begin to end returns [NumEntries] entries: the key iterator and the
    data iterator go through the same entries in the same order, and
    the pairs of the keys and values they yield are the inserted pairs,
    as a multiset. *)
Theorem iteration_yields_inserted (kvs : list (K * D))
    (Out Out' : raw_ostream) (off : Z) (g' : Gen.Generator K D) :
  matching W R ok →
  Z.of_nat (length kvs) < 2 ^ 29 →
  Forall (λ kv, ok kv.1 kv.2) kvs →
  Out ≠ [] →
  Gen.Emit (Gen.build W kvs) Out W = Some (off, g', Out') →
  tell Out' < 2 ^ 32 →
  lengths_fit (Gen.build W kvs) = true →
  ∃ t ks ds,
    Tbl.CreateIterable (Z.to_nat off) (length Out) Out' R = Some t
    ∧ Tbl.keys t = Some ks ∧ Tbl.data t = Some ds
    ∧ Z.of_nat (length ds) = Tbl.NumEntries (Tbl.base_type t)
    ∧ Z.of_nat (length ks) = Tbl.NumEntries (Tbl.base_type t)
    ∧ zip ks ds ≡ₚ kvs.
Proof.
  intros Hm Hn Hok Hpre Hemit Hsize Hfit.
  destruct (iterate_all W R ok Hm kvs Out Out' off g' Hn Hok Hpre Hemit Hsize Hfit)
    as (t & Ht & HNE & Hks & Hds).
  destruct (build_ok W kvs Hn) as (_ & Hperm & _).
  exists t, (Gen.Key <$> items (Gen.Buckets (Gen.build W kvs))),
    (Gen.Data <$> items (Gen.Buckets (Gen.build W kvs))).
  assert (Hlen : length (items (Gen.Buckets (Gen.build W kvs))) = length kvs).
  { by rewrite Hperm, length_fmap. }
  split; [done|]. split; [done|]. split; [done|].
  split; [by rewrite length_fmap, HNE, Hlen|].
  split; [by rewrite length_fmap, HNE, Hlen|].
  rewrite zip_key_data, Hperm. by rewrite entries_pairs.
Qed.
End Claims.

(** [find_inserted] on the single-insert scenario: key 7 is found. *)
Lemma find_inserted_witness :
  ∃ off g' Out',
    Gen.Emit (Gen.build 0 [(7, 42)]) IntCodec.prefix8 0 = Some (off, g', Out')
    ∧ ∃ t it d',
        Tbl.Create (Z.to_nat off) Out' 0 = Some t
        ∧ Tbl.find t 7 None = Some it
        ∧ Tbl.iterator_eq it Tbl.iterator_end = false
        ∧ Tbl.deref (Tbl.Base t) it = Some d'
        ∧ (7, d') ∈ [(7, 42)].
Proof.
  destruct (Gen.Emit (Gen.build 0 [(7, 42)]) IntCodec.prefix8 0)
    as [[[off g'] Out']|] eqn:He; [|vm_compute in He; discriminate].
  exists off, g', Out'. split; [reflexivity|].
  apply (find_inserted 0 0 IntCodec.u32 [(7, 42)] IntCodec.prefix8 Out' off g' 7 42).
  - apply int_matching.
  - vm_compute. reflexivity.
  - repeat constructor; vm_compute; discriminate.
  - discriminate.
  - exact He.
  - vm_compute in He. injection He as <- <- <-. vm_compute. reflexivity.
  - vm_compute. reflexivity.
  - apply list_elem_of_here.
Defined.

(** C1 as stated fails: with key 7 inserted twice before the resize of the
    48th [insert], [find 7] yields the first value, 100, and not the most
    recently inserted one, 200. *)
Lemma find_most_recent_counterexample :
  most_recent IntCodec.twice 7 = Some 200
  ∧ IntCodec.lookup IntCodec.twice IntCodec.prefix8 7 = Some (Some 100)
  ∧ IntCodec.lookup IntCodec.twice IntCodec.prefix8 7
    ≠ Some (most_recent IntCodec.twice 7).
Proof. vm_compute. repeat split; [done..|discriminate]. Qed.

(** [find_absent] on the single-insert scenario: key 0 is not found. *)
Lemma find_absent_witness :
  ∃ off g' Out',
    Gen.Emit (Gen.build 0 [(7, 42)]) IntCodec.prefix8 0 = Some (off, g', Out')
    ∧ ∃ t it,
        Tbl.Create (Z.to_nat off) Out' 0 = Some t
        ∧ Tbl.find t 0 None = Some it
        ∧ it = Tbl.iterator_end
        ∧ Tbl.iterator_eq it Tbl.iterator_end = true.
Proof.
  destruct (Gen.Emit (Gen.build 0 [(7, 42)]) IntCodec.prefix8 0)
    as [[[off g'] Out']|] eqn:He; [|vm_compute in He; discriminate].
  exists off, g', Out'. split; [reflexivity|].
  apply (find_absent 0 0 IntCodec.u32 [(7, 42)] IntCodec.prefix8 Out' off g' 0).
  - apply int_matching.
  - vm_compute. reflexivity.
  - repeat constructor; vm_compute; discriminate.
  - discriminate.
  - exact He.
  - vm_compute in He. injection He as <- <- <-. vm_compute. reflexivity.
  - vm_compute. reflexivity.
  - intros Hin. apply list_elem_of_In in Hin. simpl in Hin.
    destruct Hin as [Hin|[]]. discriminate Hin.
Defined.

(** [iteration_yields_inserted] on the collision scenario: keys 7 and 71
    share bucket 7 and both pairs come back. *)
Lemma iteration_yields_inserted_witness :
  ∃ off g' Out',
    Gen.Emit (Gen.build 0 [(7, 100); (71, 200)]) IntCodec.prefix8 0
    = Some (off, g', Out')
    ∧ ∃ t ks ds,
        Tbl.CreateIterable (Z.to_nat off) (length IntCodec.prefix8) Out' 0 = Some t
        ∧ Tbl.keys t = Some ks ∧ Tbl.data t = Some ds
        ∧ Z.of_nat (length ds) = Tbl.NumEntries (Tbl.base_type t)
        ∧ Z.of_nat (length ks) = Tbl.NumEntries (Tbl.base_type t)
        ∧ zip ks ds ≡ₚ [(7, 100); (71, 200)].
Proof.
  destruct (Gen.Emit (Gen.build 0 [(7, 100); (71, 200)]) IntCodec.prefix8 0)
    as [[[off g'] Out']|] eqn:He; [|vm_compute in He; discriminate].
  exists off, g', Out'. split; [reflexivity|].
  apply (iteration_yields_inserted 0 0 IntCodec.u32 [(7, 100); (71, 200)]
           IntCodec.prefix8 Out' off g').
  - apply int_matching.
  - vm_compute. reflexivity.
  - repeat constructor; vm_compute; discriminate.
  - discriminate.
  - exact He.
  - vm_compute in He. injection He as <- <- <-. vm_compute. reflexivity.
  - vm_compute. reflexivity.
Defined.

(** ** Growth *)

Lemma grow_below_48 (n : nat) : (n < 48)%nat → (Nat.iter n grow (64, 0)).1 = 64.
Proof.
  intros Hn. do 48 (destruct n as [|n]; [vm_compute; reflexivity|]). lia.
Qed.

Section Growth.
Context {I K D : Type} `{!Gen.Info I K D}.
Variable W : I.

(** C3 (as amended). [insert] counts the new entry first; when then
    [4 * NumEntries >= 3 * NumBuckets] it doubles [NumBuckets] and moves
    every entry into the new array before it links the new one, and
    otherwise leaves [NumBuckets] alone. Either way the entries are the
    old ones and the new one, each in the bucket its hash selects.
    Starting from 64 buckets, the doubling to 128 happens in the 48th
    [insert], when [4 * 48 = 192 >= 3 * 64]. *)
Theorem insert_grows (kvs : list (K * D)) (k : K) (d : D) :
  Z.of_nat (length kvs) + 1 < 2 ^ 29 →
  let g := Gen.build W kvs in
  let g' := Gen.insert g k d W in
  Gen.NumEntries g' = Gen.NumEntries g + 1
  ∧ Gen.NumBuckets g'
    = (if 4 * Gen.NumEntries g' >=? 3 * Gen.NumBuckets g
       then 2 * Gen.NumBuckets g else Gen.NumBuckets g)
  ∧ 4 * Gen.NumEntries g' < 3 * Gen.NumBuckets g'
  ∧ items (Gen.Buckets g') ≡ₚ Gen.newItem k d W :: items (Gen.Buckets g)
  ∧ table_ok (Gen.NumBuckets g') (Gen.Buckets g')
  ∧ ((length kvs < 47)%nat → Gen.NumBuckets g = 64 ∧ Gen.NumBuckets g' = 64)
  ∧ (length kvs = 47%nat → Gen.NumBuckets g = 64 ∧ Gen.NumBuckets g' = 128).
Proof.
  intros Hn g g'.
  destruct (build_ok W kvs ltac:(lia)) as (Hwf & _ & HNE).
  destruct (insert_ok W g k d Hwf) as (Hwf' & Hperm & HNE' & HNB');
    [fold g in HNE; lia|].
  fold g' in Hwf', Hperm, HNE', HNB'.
  destruct Hwf' as (_ & Hok' & _ & Hload').
  split; [done|]. split; [by rewrite HNE'|]. split; [done|].
  split; [done|]. split; [done|].
  pose proof (build_counters W kvs) as Hc.
  pose proof (build_counters W (kvs ++ [(k, d)])) as Hc'.
  rewrite build_snoc in Hc'. cbn [fst snd] in Hc'. fold g in Hc. fold g g' in Hc'.
  rewrite length_app, Nat.add_comm in Hc'. cbn [length Nat.add] in Hc'.
  apply (f_equal fst) in Hc, Hc'. cbn [fst] in Hc, Hc'.
  split.
  - intros Hlt. rewrite Hc, Hc'. split; apply grow_below_48; lia.
  - intros Hlen. rewrite Hc, Hc', Hlen. done.
Qed.
End Growth.

(** [insert_grows] on the growth scenario: keys 0..46 are in, key 47 comes. *)
Lemma insert_grows_witness :
  let g := Gen.build 0 (IntCodec.range 0 47) in
  let g' := Gen.insert g 47 47 0 in
  Gen.NumEntries g' = Gen.NumEntries g + 1
  ∧ Gen.NumBuckets g'
    = (if 4 * Gen.NumEntries g' >=? 3 * Gen.NumBuckets g
       then 2 * Gen.NumBuckets g else Gen.NumBuckets g)
  ∧ 4 * Gen.NumEntries g' < 3 * Gen.NumBuckets g'
  ∧ items (Gen.Buckets g') ≡ₚ Gen.newItem 47 47 0 :: items (Gen.Buckets g)
  ∧ table_ok (Gen.NumBuckets g') (Gen.Buckets g')
  ∧ ((length (IntCodec.range 0 47) < 47)%nat →
     Gen.NumBuckets g = 64 ∧ Gen.NumBuckets g' = 64)
  ∧ (length (IntCodec.range 0 47) = 47%nat →
     Gen.NumBuckets g = 64 ∧ Gen.NumBuckets g' = 128).
Proof.
  apply (insert_grows 0 (IntCodec.range 0 47) 47 47).
  vm_compute. reflexivity.
Defined.

(** C3 as stated fails: once keys 0..47 are inserted the table has 128
    buckets with 48 entries, so the doubling does not wait for key 48 and
    the count 49. *)
Lemma growth_after_49_counterexample :
  ¬ (Gen.NumBuckets (Gen.build 0 (IntCodec.range 0 48)) = 64
     ∧ Gen.NumBuckets (Gen.build 0 (IntCodec.range 0 49)) = 128).
Proof. intros [H48 _]. vm_compute in H48. discriminate. Qed.

(** ** The directory *)

Section Directory.
Context {I K D : Type} `{!Gen.Info I K D}.
Variable W : I.

(** C5. In the directory [Emit] writes after any sequence of [insert]
    calls (fewer than 2^29, the stream below 4 GiB), the [NumBuckets]
    field is a power of two and the [NumEntries] field is the number of
    [insert] calls. *)
Theorem directory_counts (kvs : list (K * D)) (Out Out' : raw_ostream)
    (off : Z) (g' : Gen.Generator K D) :
  Z.of_nat (length kvs) < 2 ^ 29 →
  Gen.Emit (Gen.build W kvs) Out W = Some (off, g', Out') →
  tell Out' < 2 ^ 32 →
  ∃ e : Z,
    0 ≤ e
    ∧ readNext 4 Out' (Z.to_nat off) = Some (2 ^ e, (Z.to_nat off + 4)%nat)
    ∧ readNext 4 Out' (Z.to_nat off + 4)%nat
      = Some (Z.of_nat (length kvs), (Z.to_nat off + 4 + 4)%nat).
Proof.
  intros Hn Hemit Hsize.
  destruct (build_ok W kvs Hn) as (((e & He & HNB) & _) & _ & HNE).
  destruct (directory_header W _ _ _ _ _ Hemit Hsize) as [H1 H2].
  assert (2 ^ e ≤ 2 ^ 30) by (apply Z.pow_le_mono_r; lia).
  rewrite HNB, wrap32_small in H1 by lia.
  rewrite HNE, wrap32_small in H2 by lia.
  exists e. split; [lia|done].
Qed.

(** C6. The offset [Emit] returns is 4-byte aligned, it is the smallest
    4-byte aligned offset not below the offset reached after the last
    payload byte, and the bytes between the payload and the directory
    are zero (the stream stays below 4 GiB). *)
Theorem directory_aligned (g g' : Gen.Generator K D) (Out Out' : raw_ostream)
    (off : Z) :
  Gen.Emit g Out W = Some (off, g', Out') →
  tell Out' < 2 ^ 32 →
  ∃ payload pad : list byte,
    payload = payload_bytes W (Gen.Buckets g)
    ∧ Out' = Out ++ payload ++ pad ++ directory_bytes g'
    ∧ Forall (λ b, b = 0) pad
    ∧ off = tell (Out ++ payload ++ pad)
    ∧ off mod 4 = 0
    ∧ tell (Out ++ payload) ≤ off
    ∧ ∀ m, m mod 4 = 0 → tell (Out ++ payload) ≤ m → off ≤ m.
Proof.
  intros Hemit Hsize.
  destruct (emitted_layout W g g' Out Out' off Hemit Hsize)
    as (pad & HOut & Hzero & _ & Hoff & Hal & Hmin).
  exists (payload_bytes W (Gen.Buckets g)), pad.
  repeat (split; [done|]). split; [|done].
  rewrite Hoff. unfold tell. rewrite !length_app. lia.
Qed.

(** [Emit] on a fresh generator after an 8-byte prefix. *)
Lemma emit_empty :
  Gen.Emit Gen.create IntCodec.prefix8 W
  = Some (8, Gen.create,
          IntCodec.prefix8 ++ [64; 0; 0; 0; 0; 0; 0; 0] ++ replicate 256 0).
Proof. vm_compute. reflexivity. Qed.
End Directory.

(** [directory_counts] on the single-insert scenario. *)
Lemma directory_counts_witness :
  ∃ off g' Out',
    Gen.Emit (Gen.build 0 [(7, 42)]) IntCodec.prefix8 0 = Some (off, g', Out')
    ∧ ∃ e : Z,
        0 ≤ e
        ∧ readNext 4 Out' (Z.to_nat off) = Some (2 ^ e, (Z.to_nat off + 4)%nat)
        ∧ readNext 4 Out' (Z.to_nat off + 4)%nat
          = Some (Z.of_nat (length [(7, 42)]), (Z.to_nat off + 4 + 4)%nat).
Proof.
  destruct (Gen.Emit (Gen.build 0 [(7, 42)]) IntCodec.prefix8 0)
    as [[[off g'] Out']|] eqn:He; [|vm_compute in He; discriminate].
  exists off, g', Out'. split; [reflexivity|].
  apply (directory_counts 0 [(7, 42)] IntCodec.prefix8 Out' off g').
  - vm_compute. reflexivity.
  - exact He.
  - vm_compute in He. injection He as <- <- <-. vm_compute. reflexivity.
Defined.

(** [directory_aligned] on the single-insert scenario: the payload ends at
    22 and the directory starts at 24. *)
Lemma directory_aligned_witness :
  ∃ off g' Out',
    Gen.Emit (Gen.build 0 [(7, 42)]) IntCodec.prefix8 0 = Some (off, g', Out')
    ∧ ∃ payload pad : list byte,
        payload = payload_bytes 0 (Gen.Buckets (Gen.build 0 [(7, 42)]))
        ∧ Out' = IntCodec.prefix8 ++ payload ++ pad ++ directory_bytes g'
        ∧ Forall (λ b, b = 0) pad
        ∧ off = tell (IntCodec.prefix8 ++ payload ++ pad)
        ∧ off mod 4 = 0
        ∧ tell (IntCodec.prefix8 ++ payload) ≤ off
        ∧ ∀ m, m mod 4 = 0 → tell (IntCodec.prefix8 ++ payload) ≤ m → off ≤ m.
Proof.
  destruct (Gen.Emit (Gen.build 0 [(7, 42)]) IntCodec.prefix8 0)
    as [[[off g'] Out']|] eqn:He; [|vm_compute in He; discriminate].
  exists off, g', Out'. split; [reflexivity|].
  apply (directory_aligned 0 (Gen.build 0 [(7, 42)]) g' IntCodec.prefix8 Out' off).
  - exact He.
  - vm_compute in He. injection He as <- <- <-. vm_compute. reflexivity.
Defined.

(** ** The empty table *)

Section Empty.
Context {I J K IK EK D RD : Type} `{!Gen.Info I K D} `{!Tbl.Info J IK EK RD}.

(** C7. With no [insert] and a sink at offset 8, [Emit] returns 8 and
    writes [40 00 00 00 00 00 00 00], that is 64 buckets and 0 entries,
    and then 64 zero 32-bit offsets; on the reader over these bytes
    every [find] returns the end iterator, whatever the codec and the
    key. *)
Theorem empty_table (W : I) (R : J) (k : EK) (InfoPtr : option J) :
  Gen.Emit (Gen.build W []) IntCodec.prefix8 W
  = Some (8, Gen.create,
          IntCodec.prefix8 ++ [64; 0; 0; 0; 0; 0; 0; 0]
            ++ (replicate 64 0 ≫= le_bytes 4))
  ∧ ∃ t,
      Tbl.Create 8%nat (IntCodec.prefix8 ++ [64; 0; 0; 0; 0; 0; 0; 0]
                      ++ (replicate 64 0 ≫= le_bytes 4)) R = Some t
      ∧ Tbl.NumBuckets t = 64 ∧ Tbl.NumEntries t = 0
      ∧ Tbl.find t k InfoPtr = Some Tbl.iterator_end.
Proof.
  split; [apply emit_empty|].
  set (mem := IntCodec.prefix8 ++ [64; 0; 0; 0; 0; 0; 0; 0]
                ++ (replicate 64 0 ≫= le_bytes 4)).
  exists {| Tbl.NumBuckets := 64; Tbl.NumEntries := 0; Tbl.Buckets := 16%nat;
            Tbl.Base := mem; Tbl.InfoObj := R |}.
  split; [vm_compute; reflexivity|].
  split; [done|]. split; [done|].
  unfold Tbl.find, Tbl.find_probe.
  cbn [snd Tbl.NumBuckets Tbl.Buckets Tbl.Base Tbl.InfoObj].
  set (h := wrap32 (Tbl.ComputeHash R (Tbl.GetInternalKey R k))).
  change (wrap32 (64 - 1)) with (2 ^ 6 - 1).
  pose proof (index_lt h 6 ltac:(lia)) as Hidx.
  set (i := Z.to_nat (Z.land h (2 ^ 6 - 1))).
  assert (Hcell : replicate 64 0 !! i = Some 0).
  { apply lookup_replicate_2. subst i. lia. }
  assert (Hread : readNext 4 mem (16 + 4 * i)%nat = Some (0, (16 + 4 * i + 4)%nat)).
  { pose proof (readNext_cell (λ v : Z, v) (replicate 64 0) i 0
                  (IntCodec.prefix8 ++ [64; 0; 0; 0; 0; 0; 0; 0]) [] Hcell) as Hr.
    rewrite app_nil_r, <-(assoc_L (++)) in Hr. exact Hr. }
  rewrite Hread. done.
Qed.
End Empty.

(** ** Bucket counts and the offset-0 assert *)

Section Rejects.
Context {I K D : Type} `{!Gen.Info I K D}.
Implicit Types (B : Gen.Bucket K D) (g : Gen.Generator K D).
Variable W : I.

Lemma length_cells g :
  length (Gen.Buckets g ≫= λ B, le_bytes 4 (Gen.Off B))
  = (4 * length (Gen.Buckets g))%nat.
Proof.
  induction (Gen.Buckets g) as [|B Bs IH]; [done|].
  rewrite bind_cons, length_app, length_le_bytes, IH. cbn [length]. lia.
Qed.

Lemma Emit_total g (Out : raw_ostream) :
  emit_ready W g Out = true →
  ∃ off g' Out', Gen.Emit g Out W = Some (off, g', Out') ∧ tell Out' < 2 ^ 32.
Proof.
  unfold emit_ready. intros [[Hpos Hfit]%andb_prop Hcnt]%andb_prop.
  apply Z.ltb_lt in Hpos, Hfit.
  destruct (emit_payload_total W (Gen.Buckets g) Out) as [[Bs Out1] Hpay];
    [done|lia| |].
  { apply Forall_forall. intros B HB%list_elem_of_In.
    rewrite forallb_forall in Hcnt. specialize (Hcnt B HB).
    destruct (Gen.Head B); [done|]. intros _.
    apply negb_true_iff, Z.eqb_neq in Hcnt. done. }
  destruct (Gen.Emit g Out W) as [[[off g'] Out']|] eqn:Hemit.
  - exists off, g', Out'. split; [done|].
    destruct (Emit_spec W g Out off g' Out' Hemit) as (Hpay' & _ & _ & _ & ->).
    destruct (emit_payload_spec W _ _ _ _ Hpay') as (_ & Hlen & _).
    cbv zeta.
    assert (0 ≤ (- wrap32 (tell (Out ++ payload_bytes W (Gen.Buckets g)))) mod 4 < 4)
      by (apply Z.mod_pos_bound; lia).
    set (N := (- wrap32 (tell (Out ++ payload_bytes W (Gen.Buckets g)))) mod 4) in *.
    unfold tell, directory_bytes in *.
    rewrite !length_app, length_replicate, !length_le_bytes, length_cells, Hlen.
    lia.
  - unfold Gen.Emit in Hemit. rewrite Hpay in Hemit. done.
Qed.

(** The length field of a block is the count the bucket caches, cut to
    16 bits. *)
Lemma length_field g g' (Out Out' : raw_ostream) (off : Z) (i : nat) B :
  Gen.Emit g Out W = Some (off, g', Out') → tell Out' < 2 ^ 32 →
  Gen.Buckets g !! i = Some B → Gen.Head B ≠ [] →
  ∃ B', Gen.Buckets g' !! i = Some B'
    ∧ Gen.Off B' = tell (Out ++ payload_bytes W (take i (Gen.Buckets g)))
    ∧ readNext 2 Out' (Z.to_nat (Gen.Off B'))
      = Some (wrap16 (Gen.Length B), (Z.to_nat (Gen.Off B') + 2)%nat).
Proof.
  intros Hemit Hsize Hi Hne.
  destruct (block_at W g g' Out Out' off Hemit Hsize i B Hi Hne)
    as (B' & pre & post & HB' & Hoff & _ & Hpre & HOut).
  exists B'. split; [done|]. split; [by rewrite Hoff, Hpre|].
  rewrite Hoff, Nat2Z.id.
  by apply (readNext_at 2 Out' _ pre (Gen.Length B)
              (chain_bytes W (Gen.Head B) ++ post)).
Qed.

(** C8 (as amended). [Emit] does not look at how long a chain is: when
    the payload starts after offset 0, the stream ends below 4 GiB and
    no chain has a zero count, [Emit] goes through, and the length field
    of every block is the bucket's count modulo 65536, so that a bucket
    of more than 65535 entries is written with a cut count. *)
Theorem bucket_count_truncated g (Out : raw_ostream) :
  emit_ready W g Out = true →
  ∃ off g' Out',
    Gen.Emit g Out W = Some (off, g', Out')
    ∧ ∀ (i : nat) B, Gen.Buckets g !! i = Some B → Gen.Head B ≠ [] →
        ∃ B', Gen.Buckets g' !! i = Some B'
          ∧ readNext 2 Out' (Z.to_nat (Gen.Off B'))
            = Some (Gen.Length B mod 65536, (Z.to_nat (Gen.Off B') + 2)%nat).
Proof.
  intros Hready.
  destruct (Emit_total g Out Hready) as (off & g' & Out' & Hemit & Hsize).
  exists off, g', Out'. split; [done|]. intros i B Hi Hne.
  destruct (length_field g g' Out Out' off i B Hemit Hsize Hi Hne)
    as (B' & HB' & _ & Hread).
  by exists B'.
Qed.

(** C9 (as amended). With the sink at offset 0, [Emit] on a builder
    that holds at least one entry fails the assert of the first
    non-empty bucket, before anything is written. *)
Theorem emit_at_zero_rejects (kvs : list (K * D)) :
  kvs ≠ [] → Z.of_nat (length kvs) < 2 ^ 29 →
  Gen.Emit (Gen.build W kvs) [] W = None.
Proof.
  intros Hne Hn. destruct (build_ok W kvs Hn) as (_ & Hperm & _).
  unfold Gen.Emit. rewrite emit_payload_at_zero; [done|].
  intros Hnil. apply Hne. apply Permutation_length in Hperm.
  rewrite Hnil, length_fmap in Hperm. by destruct kvs.
Qed.
End Rejects.

(** [bucket_count_truncated] on the single-insert scenario. *)
Lemma bucket_count_truncated_witness :
  let g := Gen.build 0 [(7, 42)] in
  ∃ off g' Out',
    Gen.Emit g IntCodec.prefix8 0 = Some (off, g', Out')
    ∧ ∀ (i : nat) B, Gen.Buckets g !! i = Some B → Gen.Head B ≠ [] →
        ∃ B', Gen.Buckets g' !! i = Some B'
          ∧ readNext 2 Out' (Z.to_nat (Gen.Off B'))
            = Some (Gen.Length B mod 65536, (Z.to_nat (Gen.Off B') + 2)%nat).
Proof.
  apply (bucket_count_truncated 0 (Gen.build 0 [(7, 42)]) IntCodec.prefix8).
  vm_compute. reflexivity.
Defined.

(** C8 as stated fails: after 65536 inserts of key 0 bucket 0 holds 65536
    entries, and [Emit] after an 8-byte prefix is not rejected: it writes
    the block of bucket 0 at offset 8 with the length field 0. *)
Lemma long_bucket_counterexample :
  let g := Gen.build 0 IntCodec.crowd in
  (Gen.Length <$> Gen.Buckets g !! 0%nat) = Some 65536
  ∧ ((λ B, Z.of_nat (length (Gen.Head B))) <$> Gen.Buckets g !! 0%nat) = Some 65536
  ∧ ∃ off g' Out',
      Gen.Emit g IntCodec.prefix8 0 = Some (off, g', Out')
      ∧ readNext 2 Out' 8%nat = Some (0, 10%nat).
Proof.
  intros g.
  assert (H0 : (Gen.Length <$> Gen.Buckets g !! 0%nat) = Some 65536)
    by (vm_compute; reflexivity).
  assert (H1 : ((λ B, Z.of_nat (length (Gen.Head B))) <$> Gen.Buckets g !! 0%nat)
               = Some 65536) by (vm_compute; reflexivity).
  assert (Hready : emit_ready 0 g IntCodec.prefix8 = true) by (vm_compute; reflexivity).
  clearbody g.
  split; [exact H0|]. split; [exact H1|].
  destruct (Emit_total 0 g IntCodec.prefix8 Hready) as (off & g' & Out' & Hemit & Hsize).
  exists off, g', Out'. split; [exact Hemit|].
  destruct (Gen.Buckets g !! 0%nat) as [B|] eqn:HB; [|discriminate H0].
  cbn [fmap option_fmap option_map] in H0, H1.
  injection H0 as H0. injection H1 as H1.
  destruct (length_field 0 g g' IntCodec.prefix8 Out' off 0 B Hemit Hsize HB)
    as (B' & _ & Hoff & Hread).
  { intros Hnil. rewrite Hnil in H1. discriminate H1. }
  rewrite Hoff, H0 in Hread. exact Hread.
Qed.

(** [emit_at_zero_rejects] on a builder with one entry. *)
Lemma emit_at_zero_rejects_witness : Gen.Emit (Gen.build 0 [(7, 42)]) [] 0 = None.
Proof.
  apply (emit_at_zero_rejects 0 [(7, 42)]).
  - discriminate.
  - vm_compute. reflexivity.
Defined.

(** C9 as stated fails: a builder without entries, with the sink at offset
    0, is not rejected; [Emit] returns the directory offset 0 and writes
    the directory there. *)
Lemma emit_at_zero_counterexample :
  Gen.Emit (Gen.build 0 []) [] 0
  = Some (0, Gen.create, [64; 0; 0; 0; 0; 0; 0; 0] ++ replicate 256 0).
Proof. vm_compute. reflexivity. Qed.

(** ** Iteration over a bucket that outgrew its count *)

Section Overflow.
Context {J IK EK D : Type} `{!Tbl.Info J IK EK D}.

(** At a bucket boundary whose length field reads 0, the preincrement
    of the iterators fails [assert(NumItemsInBucketLeft)]. *)
Lemma cursor_next_zero_count (mem : list byte) (c : Tbl.cursor J) (P P' : ptr) :
  Tbl.Ptr c = Some P → Tbl.NumItemsInBucketLeft c = 0 →
  readNext 2 mem P = Some (0, P') →
  Tbl.cursor_next mem c = None.
Proof.
  intros HP HN Hread. unfold Tbl.cursor_next. rewrite HP, HN.
  cbn [mbind option_bind Z.eqb]. rewrite Hread. cbn [mbind option_bind].
  by destruct (Tbl.ReadKeyDataLength _) as [L adv].
Qed.

(** A walk whose first preincrement fails yields nothing. *)
Lemma collect_trips {A} (star : list byte → Tbl.cursor J → option A)
    (mem : list byte) (fuel : nat) (c : Tbl.cursor J) :
  Tbl.NumEntriesLeft c ≠ 0 → Tbl.cursor_next mem c = None →
  Tbl.collect star mem fuel c = None.
Proof.
  intros Hne Hnext.
  assert (Heq : Tbl.cursor_eq c Tbl.cursor_end = false).
  { unfold Tbl.cursor_eq. cbn [Tbl.cursor_end Tbl.NumEntriesLeft].
    by apply Z.eqb_neq. }
  destruct fuel as [|fuel]; cbn [Tbl.collect]; rewrite Heq; [done|].
  destruct (star mem c); cbn [mbind option_bind]; [|done].
  by rewrite Hnext.
Qed.
End Overflow.

(** What [Emit] writes for 65536 inserts of key 0 after an 8-byte prefix:
    the block of bucket 0 starts at offset 8 and its length field is 0. *)
Lemma crowd_emitted :
  ∃ off g' Out',
    Gen.Emit (Gen.build 0 IntCodec.crowd) IntCodec.prefix8 0 = Some (off, g', Out')
    ∧ tell Out' < 2 ^ 32
    ∧ readNext 2 Out' 8%nat = Some (0, 10%nat).
Proof.
  set (g := Gen.build 0 IntCodec.crowd).
  assert (H0 : (Gen.Length <$> Gen.Buckets g !! 0%nat) = Some 65536)
    by (vm_compute; reflexivity).
  assert (H1 : ((λ B, Z.of_nat (length (Gen.Head B))) <$> Gen.Buckets g !! 0%nat)
               = Some 65536) by (vm_compute; reflexivity).
  assert (Hready : emit_ready 0 g IntCodec.prefix8 = true) by (vm_compute; reflexivity).
  clearbody g.
  destruct (Emit_total 0 g IntCodec.prefix8 Hready) as (off & g' & Out' & Hemit & Hsize).
  exists off, g', Out'. split; [exact Hemit|]. split; [exact Hsize|].
  destruct (Gen.Buckets g !! 0%nat) as [B|] eqn:HB; [|discriminate H0].
  cbn [fmap option_fmap option_map] in H0, H1.
  injection H0 as H0. injection H1 as H1.
  destruct (length_field 0 g g' IntCodec.prefix8 Out' off 0 B Hemit Hsize HB)
    as (B' & _ & Hoff & Hread).
  { intros Hnil. rewrite Hnil in H1. discriminate H1. }
  rewrite Hoff, H0 in Hread. exact Hread.
Qed.

(** C4 as stated fails: after 65536 inserts of key 0, [Emit] after an
    8-byte prefix succeeds and the reader is created with [NumEntries]
    65536, but the length field of bucket 0 reads 0, so the first [++]
    of either iterator fails [assert(NumItemsInBucketLeft)]: the walk
    from begin to end yields no sequence of entries. *)
Lemma iteration_overlong_counterexample :
  ∃ off g' Out',
    Gen.Emit (Gen.build 0 IntCodec.crowd) IntCodec.prefix8 0 = Some (off, g', Out')
    ∧ ∃ t,
        Tbl.CreateIterable (Z.to_nat off) (length IntCodec.prefix8) Out' 0 = Some t
        ∧ Tbl.NumEntries (Tbl.base_type t) = 65536
        ∧ Tbl.cursor_next Out' (Tbl.cursor_begin t) = None
        ∧ Tbl.data t = None
        ∧ Tbl.keys t = None.
Proof.
  destruct crowd_emitted as (off & g' & Out' & Hemit & Hsize & Hread).
  exists off, g', Out'. split; [exact Hemit|].
  assert (Hlen : Z.of_nat (length IntCodec.crowd) = 65536).
  { unfold IntCodec.crowd. rewrite length_replicate. apply Z2Nat.id. lia. }
  assert (Hcount : Z.of_nat (length IntCodec.crowd) < 2 ^ 29) by (rewrite Hlen; lia).
  assert (Hpre : IntCodec.prefix8 ≠ []) by discriminate.
  pose proof (create_reader 0 0 IntCodec.crowd IntCodec.prefix8 Out' off g'
                Hcount Hpre Hemit Hsize) as Hcreate.
  rewrite Hlen in Hcreate. clear Hlen Hcount Hemit.
  set (NB := Gen.NumBuckets (Gen.build 0 IntCodec.crowd)) in Hcreate.
  clearbody NB.
  set (t := {| Tbl.base_type :=
                 {| Tbl.NumBuckets := NB; Tbl.NumEntries := 65536;
                    Tbl.Buckets := (Z.to_nat off + 4 + 4)%nat;
                    Tbl.Base := Out'; Tbl.InfoObj := 0 |};
               Tbl.Payload := length IntCodec.prefix8 |}).
  assert (Hnext : Tbl.cursor_next Out' (Tbl.cursor_begin t) = None).
  { apply (cursor_next_zero_count Out' (Tbl.cursor_begin t) 8%nat 10%nat);
      [reflexivity|reflexivity|exact Hread]. }
  exists t. split.
  { unfold Tbl.CreateIterable. rewrite Hcreate. reflexivity. }
  split; [reflexivity|]. split; [exact Hnext|].
  split; apply collect_trips; (discriminate || exact Hnext).
Qed.

(** ** The per-call codec of [find] *)

Section PerCall.
Context {J IK EK D : Type} `{!Tbl.Info J IK EK D}.
Implicit Types (t : Tbl.OnDiskChainedHashTable J) (P : J) (mem : list byte).

(** The loop looks at its codec through [ReadKey] and [EqualKey] only. *)
Lemma find_loop_ext mem P P' (IKey : IK) (h : Z) (n : nat) :
  (∀ bs l, Tbl.ReadKey P' bs l = Tbl.ReadKey P bs l) →
  (∀ a b, Tbl.EqualKey P' a b = Tbl.EqualKey P a b) →
  ∀ Items : ptr,
  (λ it, (Tbl.it_Key it, Tbl.it_Data it, Tbl.it_Len it))
    <$> Tbl.find_loop mem P' IKey h n Items
  = (λ it, (Tbl.it_Key it, Tbl.it_Data it, Tbl.it_Len it))
    <$> Tbl.find_loop mem P IKey h n Items.
Proof.
  intros Hkey Heq. induction n as [|n IH]; intros Items; cbn [Tbl.find_loop].
  { done. }
  destruct (readNext 4 mem Items) as [[ItemHash Items1]|]; [|done].
  cbn [mbind option_bind].
  destruct (Tbl.ReadKeyDataLength (drop Items1 mem)) as [L adv].
  destruct (negb (ItemHash =? h)); [apply IH|].
  rewrite Hkey, Heq.
  destruct (negb (Tbl.EqualKey P _ IKey)); [apply IH|done].
Qed.

(** A hit of the loop is an entry whose key, read with the codec the loop
    was given, that codec's [EqualKey] accepts; the iterator keeps that
    key, points behind it and carries the codec. *)
Lemma find_loop_accepts mem P (IKey : IK) (h : Z) (n : nat) :
  ∀ (Items : ptr) it,
  Tbl.find_loop mem P IKey h n Items = Some it →
  it = Tbl.iterator_end
  ∨ ∃ (Kp : ptr) (L : Z * Z),
      it = {| Tbl.it_Key := Some (Tbl.ReadKey P (drop Kp mem) L.1);
              Tbl.it_Data := Some (Kp + Z.to_nat L.1)%nat;
              Tbl.it_Len := L.2; Tbl.it_InfoObj := Some P |}
      ∧ Tbl.EqualKey P (Tbl.ReadKey P (drop Kp mem) L.1) IKey = true.
Proof.
  induction n as [|n IH]; intros Items it; cbn [Tbl.find_loop].
  { intros [= <-]. by left. }
  destruct (readNext 4 mem Items) as [[ItemHash Items1]|]; [|done].
  cbn [mbind option_bind].
  destruct (Tbl.ReadKeyDataLength (drop Items1 mem)) as [L adv].
  destruct (negb (ItemHash =? h)); [apply IH|].
  destruct (Tbl.EqualKey P _ IKey) eqn:Heq; cbn [negb]; [|apply IH].
  intros [= <-]. right. by exists (Items1 + adv)%nat, L.
Qed.

(** C10. [find] with a per-call codec still converts the key and
    computes the hash with the codec the reader was made with, so the
    bucket index it probes is the same for every per-call codec. A hit
    is an entry whose key was read with the per-call [ReadKey] and
    accepted by the per-call [EqualKey], against the internal key the
    reader's codec made; the iterator carries the per-call codec and
    reads the data with it. The outcome does not change when the
    per-call codec is replaced by one with the same [ReadKey] and
    [EqualKey], whatever its [GetInternalKey] and [ComputeHash], nor
    when the reader's codec is replaced by one with the same
    [GetInternalKey] and [ComputeHash], whatever its [ReadKey],
    [EqualKey] and [ReadData]. When the per-call codec converts and
    hashes keys as the reader's does, [find] with it is [find] on a
    reader made with it. *)
Theorem find_per_call_info t (k : EK) P :
  (Tbl.find_probe t k (Some P)).1 = (Tbl.find_probe t k None).1
  ∧ (Tbl.find_probe t k (Some P)).1
    = Z.land (wrap32 (Tbl.ComputeHash (Tbl.InfoObj t)
                        (Tbl.GetInternalKey (Tbl.InfoObj t) k)))
             (wrap32 (Tbl.NumBuckets t - 1))
  ∧ (∀ it, Tbl.find t k (Some P) = Some it →
       Tbl.iterator_eq it Tbl.iterator_end = false →
       ∃ (Kp : ptr) (L : Z * Z),
         Tbl.it_InfoObj it = Some P
         ∧ Tbl.it_Key it = Some (Tbl.ReadKey P (drop Kp (Tbl.Base t)) L.1)
         ∧ Tbl.EqualKey P (Tbl.ReadKey P (drop Kp (Tbl.Base t)) L.1)
                          (Tbl.GetInternalKey (Tbl.InfoObj t) k) = true
         ∧ Tbl.it_Data it = Some (Kp + Z.to_nat L.1)%nat
         ∧ Tbl.it_Len it = L.2
         ∧ Tbl.deref (Tbl.Base t) it
           = Some (Tbl.ReadData P (Tbl.ReadKey P (drop Kp (Tbl.Base t)) L.1)
                     (drop (Kp + Z.to_nat L.1) (Tbl.Base t)) L.2))
  ∧ (∀ P',
       (∀ bs l, Tbl.ReadKey P' bs l = Tbl.ReadKey P bs l) →
       (∀ a b, Tbl.EqualKey P' a b = Tbl.EqualKey P a b) →
       (λ it, (Tbl.it_Key it, Tbl.it_Data it, Tbl.it_Len it))
         <$> Tbl.find t k (Some P')
       = (λ it, (Tbl.it_Key it, Tbl.it_Data it, Tbl.it_Len it))
         <$> Tbl.find t k (Some P))
  ∧ (∀ t',
       Tbl.NumBuckets t' = Tbl.NumBuckets t →
       Tbl.Buckets t' = Tbl.Buckets t →
       Tbl.Base t' = Tbl.Base t →
       (∀ e, Tbl.GetInternalKey (Tbl.InfoObj t') e
             = Tbl.GetInternalKey (Tbl.InfoObj t) e) →
       (∀ i, Tbl.ComputeHash (Tbl.InfoObj t') i
             = Tbl.ComputeHash (Tbl.InfoObj t) i) →
       Tbl.find t' k (Some P) = Tbl.find t k (Some P))
  ∧ ((∀ e, Tbl.GetInternalKey P e = Tbl.GetInternalKey (Tbl.InfoObj t) e) →
     (∀ i, Tbl.ComputeHash P i = Tbl.ComputeHash (Tbl.InfoObj t) i) →
     Tbl.find t k (Some P)
     = Tbl.find {| Tbl.NumBuckets := Tbl.NumBuckets t;
                   Tbl.NumEntries := Tbl.NumEntries t;
                   Tbl.Buckets := Tbl.Buckets t;
                   Tbl.Base := Tbl.Base t;
                   Tbl.InfoObj := P |} k None).
Proof.
  split; [done|]. split; [done|]. split; [|split; [|split]].
  - intros it Hfind Hnend. unfold Tbl.find, Tbl.find_probe in Hfind.
    cbn [snd] in Hfind.
    destruct (readNext 4 (Tbl.Base t) _) as [[Offset ?]|]; [|done].
    cbn [mbind option_bind] in Hfind.
    destruct (Offset =? 0).
    { injection Hfind as <-. done. }
    destruct (readNext 2 (Tbl.Base t) _) as [[Len Items]|]; [|done].
    cbn [mbind option_bind] in Hfind.
    apply find_loop_accepts in Hfind as [->|(Kp & L & -> & Heq)]; [done|].
    exists Kp, L.
    cbn [Tbl.it_InfoObj Tbl.it_Key Tbl.it_Data Tbl.it_Len].
    split; [done|]. split; [done|]. split; [exact Heq|].
    split; [done|]. split; [done|]. done.
  - intros P' Hkey Heq. unfold Tbl.find, Tbl.find_probe. cbn [snd].
    destruct (readNext 4 (Tbl.Base t) _) as [[Offset ?]|]; [|done].
    cbn [mbind option_bind].
    destruct (Offset =? 0); [done|].
    destruct (readNext 2 (Tbl.Base t) _) as [[Len Items]|]; [|done].
    cbn [mbind option_bind]. by apply find_loop_ext.
  - intros t' HNB HB Hmem Hkey Hhash. unfold Tbl.find, Tbl.find_probe.
    cbn [snd]. by rewrite HNB, HB, Hmem, Hkey, Hhash.
  - intros Hkey Hhash. unfold Tbl.find, Tbl.find_probe.
    cbn [snd Tbl.NumBuckets Tbl.Buckets Tbl.Base Tbl.InfoObj].
    by rewrite Hkey, Hhash.
Qed.
End PerCall.

(** [find_per_call_info] on a reader made with the exact codec over the
    colliding keys 7 and 71, asked for key 7. With the per-call codec
    that compares the low six bits the same bucket is probed, and the
    hit is the head of the chain, key 71 with value 200, accepted by the
    per-call [EqualKey] and carrying the per-call codec: it is what a
    reader made with that codec finds. With the reader's own codec the
    hit is key 7 with value 100. *)
Lemma find_per_call_info_witness :
  let t := FoldCodec.table FoldCodec.colliding IntCodec.prefix8 in
  (Tbl.find_probe t 7 (Some false)).1 = (Tbl.find_probe t 7 None).1
  ∧ (∃ it (Kp : ptr) (L : Z * Z),
       Tbl.find t 7 (Some false) = Some it
       ∧ Tbl.iterator_eq it Tbl.iterator_end = false
       ∧ Tbl.it_InfoObj it = Some false
       ∧ Tbl.it_Key it = Some (Tbl.ReadKey false (drop Kp (Tbl.Base t)) L.1)
       ∧ Tbl.EqualKey false (Tbl.ReadKey false (drop Kp (Tbl.Base t)) L.1)
                            (Tbl.GetInternalKey (Tbl.InfoObj t) 7) = true
       ∧ Tbl.it_Key it = Some 71
       ∧ Tbl.deref (Tbl.Base t) it = Some 200)
  ∧ (Tbl.find t 7 None ≫= Tbl.deref (Tbl.Base t)) = Some 100
  ∧ Tbl.find t 7 (Some false)
    = Tbl.find {| Tbl.NumBuckets := Tbl.NumBuckets t;
                  Tbl.NumEntries := Tbl.NumEntries t;
                  Tbl.Buckets := Tbl.Buckets t;
                  Tbl.Base := Tbl.Base t;
                  Tbl.InfoObj := false |} 7 None.
Proof.
  intros t.
  destruct (find_per_call_info t 7 false) as (Hidx & _ & Hhit & _ & _ & Hsame).
  split; [exact Hidx|]. split; [|split].
  - destruct (Tbl.find t 7 (Some false)) as [it|] eqn:Hfind;
      [|vm_compute in Hfind; discriminate].
    assert (Hnend : Tbl.iterator_eq it Tbl.iterator_end = false).
    { vm_compute in Hfind. injection Hfind as <-. vm_compute. reflexivity. }
    destruct (Hhit it eq_refl Hnend) as (Kp & L & HP & HK & Heq & _ & _ & _).
    exists it, Kp, L.
    split; [reflexivity|]. split; [exact Hnend|]. split; [exact HP|].
    split; [exact HK|]. split; [exact Heq|].
    vm_compute in Hfind. injection Hfind as <-. vm_compute. split; reflexivity.
  - vm_compute. reflexivity.
  - apply Hsame; reflexivity.
Defined.

Example per_call_salt_ignored :
  let t := IntCodec.table [(7, 42)] IntCodec.prefix8 in
  (Tbl.find_probe t 7 (Some 5)).1 = 7
  ∧ (Tbl.find t 7 (Some 5) ≫= Tbl.deref (Tbl.Base t)) = Some 42.
Proof. vm_compute. done. Qed.

(** * Further properties of the generator and the readers *)

(** ** The size of the bucket array *)

Section Size.
Context {I K D : Type} `{!Gen.Info I K D}.
Variable W : I.

(** X1. After [n] calls of [insert] on a fresh generator, [NumBuckets] is
    the least power of two from 64 on that keeps the load below 3/4: it
    is [2^e] with [4 * n < 3 * 2^e], and it is 64 or not more than
    [8 * n / 3]. The array has [NumBuckets] cells and [NumEntries] is
    [n]. *)
Theorem builder_size (kvs : list (K * D)) :
  Z.of_nat (length kvs) < 2 ^ 29 →
  let g := Gen.build W kvs in
  let n := Z.of_nat (length kvs) in
  (∃ e, 6 ≤ e ∧ Gen.NumBuckets g = 2 ^ e)
  ∧ length (Gen.Buckets g) = Z.to_nat (Gen.NumBuckets g)
  ∧ Gen.NumEntries g = n
  ∧ 4 * n < 3 * Gen.NumBuckets g
  ∧ (Gen.NumBuckets g = 64 ∨ 3 * Gen.NumBuckets g ≤ 8 * n).
Proof.
  intros Hn g n.
  destruct (build_ok W kvs Hn) as (((e & He & HNB) & [Hlen _] & _ & Hload) & _ & HNE).
  fold g in HNB, Hlen, Hload, HNE.
  split; [exists e; split; [lia|done]|]. split; [done|]. split; [done|].
  split; [subst n; lia|]. subst g n. clear e He HNB Hlen Hload HNE.
  induction kvs as [|kv kvs IH] using rev_ind; [by left|].
  rewrite length_app in Hn |- *. cbn [length] in Hn |- *.
  rewrite build_snoc.
  destruct (build_ok W kvs ltac:(lia)) as (Hwf & _ & HNE).
  destruct (insert_ok W (Gen.build W kvs) kv.1 kv.2 Hwf ltac:(lia))
    as (_ & _ & _ & ->).
  rewrite HNE. destruct (IH ltac:(lia)) as [H64|Hmin].
  - destruct (_ >=? _) eqn:Hge; [|by left].
    right. rewrite Z.geb_leb in Hge. apply Z.leb_le in Hge. lia.
  - right. destruct (_ >=? _) eqn:Hge.
    + rewrite Z.geb_leb in Hge. apply Z.leb_le in Hge. lia.
    + lia.
Qed.
End Size.

(** [builder_size] after the 49 inserts of the growth scenario. *)
Lemma builder_size_witness :
  let g := Gen.build 0 (IntCodec.range 0 49) in
  let n := Z.of_nat (length (IntCodec.range 0 49)) in
  (∃ e, 6 ≤ e ∧ Gen.NumBuckets g = 2 ^ e)
  ∧ length (Gen.Buckets g) = Z.to_nat (Gen.NumBuckets g)
  ∧ Gen.NumEntries g = n
  ∧ 4 * n < 3 * Gen.NumBuckets g
  ∧ (Gen.NumBuckets g = 64 ∨ 3 * Gen.NumBuckets g ≤ 8 * n).
Proof.
  apply (builder_size 0 (IntCodec.range 0 49)). vm_compute. reflexivity.
Defined.

(** ** The order of a chain *)

Section Chains.
Context {I K D : Type} `{!Gen.Info I K D}.
Implicit Types (B : Gen.Bucket K D) (E : Gen.Item K D)
  (Bs : list (Gen.Bucket K D)) (Es : list (Gen.Item K D)).
Variable W : I.

Lemma selected_cons (Size : Z) (j : nat) E Es :
  selected Size j (E :: Es)
  = if decide (slot Size E = Z.of_nat j) then E :: selected Size j Es
    else selected Size j Es.
Proof. unfold selected. by rewrite filter_cons. Qed.

(** Linking entries one after the other puts them in front of each
    chain, the last one first. *)
Lemma fill_chain (k : Z) Es : ∀ Bs (j : nat),
  0 ≤ k ≤ 32 →
  Head_of (foldl (λ NBs E, Gen.insert_item NBs (2 ^ k) E) Bs Es) j
  = (λ Hd, reverse (selected (2 ^ k) j Es) ++ Hd) <$> Head_of Bs j.
Proof.
  induction Es as [|E Es IH]; intros Bs j Hk.
  { cbn [foldl]. unfold Head_of. by destruct (Bs !! j). }
  cbn [foldl]. rewrite IH by done. unfold Head_of, Gen.insert_item.
  rewrite wrap64_pred_pow by done.
  pose proof (index_lt (Gen.Hash E) k ltac:(lia)) as Hidx.
  rewrite selected_cons, list_lookup_alter. unfold slot.
  destruct (decide (Z.to_nat (Z.land (Gen.Hash E) (2 ^ k - 1)) = j)) as [<-|Hne].
  - rewrite decide_True by lia.
    destruct (Bs !! _) as [B|]; [|done].
    cbn [fmap option_fmap option_map Gen.push Gen.Head].
    by rewrite reverse_cons, <-(assoc_L (++)).
  - rewrite decide_False by lia. done.
Qed.
Lemma filter_none {A} (P : A → Prop) `{!∀ x, Decision (P x)} (l : list A) :
  (∀ x, x ∈ l → ¬ P x) → filter P l = [].
Proof.
  induction l as [|x l IH]; intros Hno; [done|].
  rewrite filter_cons_False by (apply Hno; left).
  apply IH. intros y Hy. apply Hno. by right.
Qed.

(** Filtering all entries by a property that pins the bucket leaves the
    filtered chain of that bucket. *)
Lemma filter_items (P : Gen.Item K D → Prop) `{!∀ E, Decision (P E)}
    Bs (i : nat) B :
  Bs !! i = Some B →
  (∀ (i' : nat) B' E, Bs !! i' = Some B' → E ∈ Gen.Head B' → P E → i' = i) →
  filter P (items Bs) = filter P (Gen.Head B).
Proof.
  intros Hi Hpin.
  assert (Hlt : (i < length Bs)%nat) by by eapply lookup_lt_Some.
  rewrite <-(take_drop_middle Bs i B Hi) at 1.
  unfold items. rewrite bind_app, bind_cons, !filter_app.
  rewrite (filter_none P (take i Bs ≫= Gen.Head)), (filter_none P (drop (S i) Bs ≫= Gen.Head)).
  - by rewrite app_nil_r.
  - intros E (B' & HE & HB')%list_elem_of_bind HP.
    apply list_elem_of_lookup in HB' as [j HB'].
    rewrite lookup_drop in HB'. specialize (Hpin _ _ _ HB' HE HP). lia.
  - intros E (B' & HE & HB')%list_elem_of_bind HP.
    apply list_elem_of_lookup in HB' as [j HB'].
    apply lookup_take_Some in HB' as [HB' Hj].
    specialize (Hpin _ _ _ HB' HE HP). lia.
Qed.

Lemma slot_halves (e : Z) E (j : nat) :
  0 ≤ e → slot (2 ^ (e + 1)) E = Z.of_nat j →
  slot (2 ^ e) E = Z.of_nat j mod 2 ^ e.
Proof.
  unfold slot. intros He <-.
  replace (2 ^ (e + 1) - 1) with (Z.ones (e + 1)) by (rewrite Z.ones_equiv; lia).
  replace (2 ^ e - 1) with (Z.ones e) by (rewrite Z.ones_equiv; lia).
  rewrite !Z.land_ones by lia. symmetry. apply Z.mod_mod_divide.
  exists 2. rewrite Z.pow_add_r by lia. lia.
Qed.

(** X2. [resize] to twice the size moves into cell [j] of the new array
    the entries of the old cell [j mod NumBuckets] whose hash selects [j],
    in the reverse of their old order: it walks each old chain from the
    head and links every entry in front of its new chain. *)
Theorem resize_reverses (kvs : list (K * D)) (j : nat) :
  Z.of_nat (length kvs) < 2 ^ 29 →
  let g := Gen.build W kvs in
  let g2 := Gen.resize g (wrap32 (Gen.NumBuckets g * 2)) in
  Z.of_nat j < 2 * Gen.NumBuckets g →
  Gen.NumBuckets g2 = 2 * Gen.NumBuckets g
  ∧ ∃ B B2,
      Gen.Buckets g !! Z.to_nat (Z.of_nat j mod Gen.NumBuckets g) = Some B
      ∧ Gen.Buckets g2 !! j = Some B2
      ∧ Gen.Head B2 = reverse (selected (2 * Gen.NumBuckets g) j (Gen.Head B)).
Proof.
  intros Hn g g2 Hj.
  destruct (build_ok W kvs Hn) as (((e & He & HNB) & [Hlen Hcells] & _) & _).
  fold g in HNB, Hlen, Hcells.
  assert (H30 : 2 ^ e ≤ 2 ^ 30) by (apply Z.pow_le_mono_r; lia).
  assert (H0 : 0 < 2 ^ e) by lia.
  assert (Hnew : wrap32 (Gen.NumBuckets g * 2) = 2 ^ (e + 1)).
  { rewrite HNB, Z.pow_add_r by lia. apply wrap32_small. lia. }
  assert (H2 : 2 * Gen.NumBuckets g = 2 ^ (e + 1)).
  { rewrite HNB, Z.pow_add_r by lia. lia. }
  subst g2. unfold Gen.resize. cbn [Gen.NumBuckets Gen.Buckets].
  rewrite Hnew, resize_loops, H2.
  split; [apply wrap32_small; rewrite <-H2, HNB; lia|].
  pose proof (Z.mod_pos_bound (Z.of_nat j) (2 ^ e) H0) as Hmod.
  destruct (lookup_lt_is_Some_2 (Gen.Buckets g)
              (Z.to_nat (Z.of_nat j mod Gen.NumBuckets g))) as [B HB].
  { rewrite Hlen, HNB. lia. }
  pose proof (fill_chain (e + 1) (items (Gen.Buckets g)) (Gen.calloc (2 ^ (e + 1))) j
                ltac:(lia)) as Hchain.
  unfold Head_of in Hchain. unfold Gen.calloc at 2 in Hchain.
  rewrite lookup_replicate_2 in Hchain by lia.
  cbn [fmap option_fmap option_map Gen.zeroBucket Gen.Head] in Hchain.
  rewrite app_nil_r in Hchain.
  destruct (_ !! j) as [B2|] eqn:HB2; [|done].
  injection Hchain as Hchain.
  exists B, B2. split; [done|]. split; [done|].
  rewrite Hchain. f_equal. unfold selected.
  apply filter_items with (i := Z.to_nat (Z.of_nat j mod Gen.NumBuckets g)); [done|].
  intros i' B' E HB' HE Hslot.
  destruct (Hcells i' B' HB') as (_ & _ & Hall).
  rewrite Forall_forall in Hall. destruct (Hall E HE) as [_ Hi'].
  apply slot_halves in Hslot; [|lia]. unfold slot in Hslot.
  rewrite HNB in Hi' |- *. lia.
Qed.
End Chains.

(** [resize_reverses] on a table of 47 entries where keys 7, 135 and 1031
    share cell 7: they stay together in cell 7 of 128 cells. *)
Lemma resize_reverses_witness :
  let g := Gen.build 0 ([(7, 100); (135, 200)] ++ IntCodec.range 1000 45) in
  let g2 := Gen.resize g (wrap32 (Gen.NumBuckets g * 2)) in
  Gen.NumBuckets g2 = 2 * Gen.NumBuckets g
  ∧ ∃ B B2,
      Gen.Buckets g !! Z.to_nat (Z.of_nat 7 mod Gen.NumBuckets g) = Some B
      ∧ Gen.Buckets g2 !! 7%nat = Some B2
      ∧ Gen.Head B2 = reverse (selected (2 * Gen.NumBuckets g) 7 (Gen.Head B)).
Proof.
  apply (resize_reverses 0 ([(7, 100); (135, 200)] ++ IntCodec.range 1000 45) 7).
  - vm_compute. reflexivity.
  - vm_compute. reflexivity.
Defined.

Example resize_reverses_order :
  let g := Gen.build 0 ([(7, 100); (135, 200)] ++ IntCodec.range 1000 45) in
  (λ B, Gen.Key <$> Gen.Head B) <$> Gen.Buckets g !! 7%nat = Some [1031; 135; 7]
  ∧ (λ B, Gen.Key <$> Gen.Head B)
      <$> Gen.Buckets (Gen.resize g (wrap32 (Gen.NumBuckets g * 2))) !! 7%nat
    = Some [7; 135; 1031].
Proof. vm_compute. done. Qed.

(** ** Before the first resize *)

Section BeforeResize.
Context {I K D : Type} `{!Gen.Info I K D}.
Variable W : I.

(** Fewer than 48 inserts never resize: every entry is linked into the
    64 cells of the fresh array. *)
Lemma build_small (kvs : list (K * D)) :
  (length kvs < 48)%nat →
  Gen.NumBuckets (Gen.build W kvs) = 64
  ∧ Gen.Buckets (Gen.build W kvs)
    = foldl (λ Bs E, Gen.insert_item Bs (2 ^ 6) E) (Gen.calloc 64) (entry W <$> kvs).
Proof.
  induction kvs as [|kv kvs IH] using rev_ind; intros Hn; [done|].
  rewrite length_app in Hn. cbn [length] in Hn.
  destruct IH as [HNB HBs]; [lia|].
  destruct (build_ok W kvs ltac:(lia)) as (_ & _ & HNE).
  rewrite build_snoc, fmap_app, foldl_app. cbn [fmap list_fmap foldl].
  rewrite <-HBs. unfold Gen.insert. cbn [Gen.NumBuckets Gen.NumEntries Gen.Buckets].
  rewrite HNB, HNE, (wrap32_small (_ + 1)), (wrap32_small (4 * _)) by lia.
  change (wrap32 (3 * 64)) with 192.
  destruct (_ >=? 192) eqn:Hge.
  { rewrite Z.geb_leb in Hge. apply Z.leb_le in Hge. lia. }
  done.
Qed.
End BeforeResize.

(** ** Which entry [find] returns *)

Lemma filter_fmap {A B} (f : A → B) (P : B → Prop) `{!∀ y, Decision (P y)}
    (l : list A) :
  filter P (f <$> l) = f <$> filter (λ x, P (f x)) l.
Proof.
  induction l as [|x l IH]; [done|].
  rewrite fmap_cons, !filter_cons, IH. by destruct (decide (P (f x))).
Qed.

Lemma head_fmap {A B} (f : A → B) (l : list A) : head (f <$> l) = f <$> head l.
Proof. by destruct l. Qed.

Lemma fst_unique {A B} (l : list (A * B)) (x : A) (y1 y2 : B) :
  NoDup l.*1 → (x, y1) ∈ l → (x, y2) ∈ l → y1 = y2.
Proof.
  induction l as [|[a b] l IH]; intros Hnd H1 H2.
  { by apply elem_of_nil in H1. }
  rewrite fmap_cons in Hnd. apply NoDup_cons in Hnd as [Hnot Hnd].
  apply elem_of_cons in H1 as [H1|H1]; apply elem_of_cons in H2 as [H2|H2].
  - congruence.
  - injection H1 as -> ->. destruct Hnot. apply list_elem_of_fmap. by exists (a, y2).
  - injection H2 as -> ->. destruct Hnot. apply list_elem_of_fmap. by exists (a, y1).
  - by apply IH.
Qed.

Section FindFirst.
Context {I J K IK D : Type} `{!Gen.Info I K D} `{!Tbl.Info J IK K D}
        `{!EqDecision K}.
Implicit Types (E : Gen.Item K D) (B : Gen.Bucket K D).
Variables (W : I) (R : J) (ok : K → D → Prop).
Hypothesis Hm : matching W R ok.

(** The loop of [find] stops at the first entry of the chain with the key. *)
Lemma find_loop_first (k : K) (mem : list byte) (Es : list (Gen.Item K D)) :
  ∀ pre post,
  Forall (sound W ok) Es → mem = pre ++ chain_bytes W Es ++ post →
  Z.of_nat (length mem) < 2 ^ 32 →
  ∃ it,
    Tbl.find_loop mem R (Tbl.GetInternalKey R k)
      (wrap32 (Tbl.ComputeHash R (Tbl.GetInternalKey R k)))
      (length Es) (length pre) = Some it
    ∧ Tbl.deref mem it = Gen.Data <$> head (filter (λ E, Gen.Key E = k) Es)
    ∧ (Tbl.iterator_eq it Tbl.iterator_end = true
       ↔ filter (λ E, Gen.Key E = k) Es = []).
Proof.
  induction Es as [|E Es IH]; intros pre post Hs Hmem Hsize.
  { exists Tbl.iterator_end. done. }
  apply Forall_cons in Hs as [HsE Hs].
  rewrite chain_bytes_cons, <-(assoc_L (++)) in Hmem.
  set (h := wrap32 (Tbl.ComputeHash R (Tbl.GetInternalKey R k))).
  change (length (E :: Es)) with (S (length Es)).
  destruct (find_loop_step W R ok Hm R (Tbl.GetInternalKey R k) h (length Es) E pre
              (chain_bytes W Es ++ post) mem HsE Hmem Hsize)
    as (base & Hbase & Hdata & ->).
  destruct HsE as [HokE HhE].
  pose proof (m_equal W R ok Hm _ _ (Gen.EmitData W (Gen.Key E) (Gen.Data E)
                (lens W E).2 ++ chain_bytes W Es ++ post) k HokE) as Heq.
  cbv zeta in Heq. fold (lens W E) in Heq. rewrite <-Hbase in Heq.
  destruct (IH (pre ++ item_bytes W E) post Hs) as (it & Hit & Hderef & Hend);
    [by rewrite <-(assoc_L (++))|done|].
  rewrite filter_cons.
  destruct (decide (Gen.Key E = k)) as [Hk|Hk].
  - assert (Hhash : (Gen.Hash E =? h) = true).
    { apply Z.eqb_eq. rewrite HhE. subst h. rewrite <-Hk. symmetry.
      apply (m_hash W R ok Hm _ _ HokE). }
    apply Heq in Hk. rewrite Hhash, Hk. cbn [negb].
    eexists. split; [done|]. split; [|done].
    unfold Tbl.deref. cbn [Tbl.it_Key Tbl.it_Data Tbl.it_InfoObj Tbl.it_Len
                             mbind option_bind head fmap option_fmap option_map].
    rewrite Hdata, Hbase. f_equal. apply (m_data W R ok Hm _ _ _ _ HokE).
  - assert (Hskip : Tbl.EqualKey R (Tbl.ReadKey R (drop base mem) (lens W E).1)
                      (Tbl.GetInternalKey R k) = false).
    { apply not_true_is_false. intros Hkey. by apply Heq in Hkey. }
    rewrite Hskip. cbn [negb]. exists it.
    by destruct (negb (Gen.Hash E =? h)).
Qed.

Variables (kvs : list (K * D)) (Out Out' : raw_ostream) (off : Z)
          (g' : Gen.Generator K D).
Hypothesis Hcount : Z.of_nat (length kvs) < 2 ^ 29.
Hypothesis Hok : Forall (λ kv, ok kv.1 kv.2) kvs.
Hypothesis Hpre : Out ≠ [].
Hypothesis Hemit : Gen.Emit (Gen.build W kvs) Out W = Some (off, g', Out').
Hypothesis Hsize : tell Out' < 2 ^ 32.
Hypothesis Hfit : lengths_fit (Gen.build W kvs) = true.

(** [find] returns the first entry with the key in the chain its hash
    selects, and no other chain holds the key. *)
Lemma find_first_item (k : K) :
  ∃ t it (i : nat) B,
    Tbl.Create (Z.to_nat off) Out' R = Some t
    ∧ Tbl.find t k None = Some it
    ∧ Gen.Buckets (Gen.build W kvs) !! i = Some B
    ∧ Z.land (wrap32 (Tbl.ComputeHash R (Tbl.GetInternalKey R k)))
             (Gen.NumBuckets (Gen.build W kvs) - 1) = Z.of_nat i
    ∧ filter (λ E, Gen.Key E = k) (items (Gen.Buckets (Gen.build W kvs)))
      = filter (λ E, Gen.Key E = k) (Gen.Head B)
    ∧ Tbl.deref Out' it
      = Gen.Data <$> head (filter (λ E, Gen.Key E = k) (Gen.Head B))
    ∧ (Tbl.iterator_eq it Tbl.iterator_end = true
       ↔ filter (λ E, Gen.Key E = k) (Gen.Head B) = []).
Proof.
  eexists. rewrite (create_reader W R kvs Out Out' off g' Hcount Hpre Hemit Hsize).
  destruct (find_cases W R kvs Out Out' off g' Hcount Hemit Hsize Hfit k)
    as (i & B & HB & Hidx & Hempty & Hwalk). cbv zeta in *.
  destruct (build_ok W kvs Hcount) as ((_ & [_ Hcells] & _) & _).
  assert (Hpin : filter (λ E, Gen.Key E = k) (items (Gen.Buckets (Gen.build W kvs)))
                 = filter (λ E, Gen.Key E = k) (Gen.Head B)).
  { apply filter_items with (i := i); [done|].
    intros i' B' E HB' HE Hk.
    destruct (built_items W ok kvs Hcount Hok E) as (_ & _ & _ & [HokE HhE]).
    { apply list_elem_of_bind. exists B'. split; [done|].
      by eapply list_elem_of_lookup_2. }
    destruct (Hcells i' B' HB') as (_ & _ & Hall).
    rewrite Forall_forall in Hall. destruct (Hall E HE) as [_ Hi'].
    rewrite HhE, <-(m_hash W R ok Hm _ _ HokE), Hk, Hidx in Hi'. lia. }
  destruct (Gen.Head B) as [|E Es] eqn:HhB.
  - exists Tbl.iterator_end, i, B. rewrite HhB. repeat (split; [by auto|]). done.
  - destruct (Hwalk ltac:(done)) as (pre & post & HOut & Hfind).
    destruct (find_loop_first k Out' (Gen.Head B) pre post)
      as (it & Hloop & Hderef & Hend).
    { by eapply built_chain. } { by rewrite HhB. } { done. }
    exists it, i, B. rewrite HhB in *.
    split; [done|]. split; [by rewrite Hfind|]. done.
Qed.
Lemma filter_ext_in {A} (P1 P2 : A → Prop)
    `{!∀ x, Decision (P1 x), !∀ x, Decision (P2 x)} (l : list A) :
  (∀ x, x ∈ l → (P1 x ↔ P2 x)) → filter P1 l = filter P2 l.
Proof.
  induction l as [|x l IH]; intros Hiff; [done|].
  rewrite !filter_cons, IH by (intros y Hy; apply Hiff; by right).
  destruct (decide (P1 x)) as [Hp1|Hp1], (decide (P2 x)) as [Hp2|Hp2]; try done.
  - destruct Hp2. apply Hiff; [left|done].
  - destruct Hp1. apply Hiff; [left|done].
Qed.

(** X3. On a table of fewer than 2^29 inserts in which no bucket holds
    more than 65535 entries, emitted behind a non-empty prefix into a
    stream below 4 GiB and read with a matching codec, [find k] and the
    iterators agree: the value [find k] leads to is the one the data
    iterator yields at the first position where the key iterator yields
    [k], and [find k] is the end iterator exactly when the key iterator
    never yields [k]. *)
Theorem find_agrees_with_iteration (k : K) :
  ∃ t ks ds it,
    Tbl.CreateIterable (Z.to_nat off) (length Out) Out' R = Some t
    ∧ Tbl.keys t = Some ks ∧ Tbl.data t = Some ds
    ∧ Tbl.find (Tbl.base_type t) k None = Some it
    ∧ Tbl.deref Out' it = snd <$> head (filter (λ p, p.1 = k) (zip ks ds))
    ∧ (Tbl.iterator_eq it Tbl.iterator_end = true ↔ k ∉ ks).
Proof.
  destruct (iterate_all W R ok Hm kvs Out Out' off g' Hcount Hok Hpre Hemit Hsize Hfit)
    as (t & Ht & _ & Hks & Hds).
  destruct (find_first_item k)
    as (t' & it & i & B & Ht' & Hfind & HB & _ & Hpin & Hderef & Hend).
  unfold Tbl.CreateIterable in Ht. rewrite Ht' in Ht.
  cbn [mbind option_bind] in Ht. injection Ht as <-.
  eexists _, _, _, it.
  split; [unfold Tbl.CreateIterable; rewrite Ht'; reflexivity|].
  split; [exact Hks|]. split; [exact Hds|].
  cbn [Tbl.base_type]. split; [done|].
  set (Es := items (Gen.Buckets (Gen.build W kvs))) in *.
  rewrite <-Hpin in Hderef, Hend. split.
  - rewrite Hderef, zip_key_data, (filter_fmap _ (λ p : K * D, p.1 = k)), head_fmap.
    cbn [fst]. by destruct (head _).
  - rewrite Hend. split.
    + intros Hnil (E & Hk & HE)%list_elem_of_fmap.
      by apply (filter_nil_not_elem_of (λ E, Gen.Key E = k) Es E Hnil).
    + intros Hnot. apply filter_none. intros E HE Hk. apply Hnot.
      apply list_elem_of_fmap. by exists E.
Qed.

(** X4. Before the first resize, that is with fewer than 48 inserts,
    [find k] leads to the value of the last [insert] for [k]: [insert]
    links each entry in front of its chain. *)
Theorem find_most_recent_before_resize (k : K) :
  (length kvs < 48)%nat →
  ∃ t it,
    Tbl.Create (Z.to_nat off) Out' R = Some t
    ∧ Tbl.find t k None = Some it
    ∧ Tbl.deref Out' it = most_recent kvs k.
Proof.
  intros Hsmall.
  destruct (find_first_item k)
    as (t & it & i & B & Ht & Hfind & HB & Hidx & _ & Hderef & _).
  exists t, it. split; [done|]. split; [done|].
  destruct (build_small W kvs Hsmall) as [HNB HBs].
  destruct (build_ok W kvs Hcount) as ((_ & [Hlen _] & _) & _).
  rewrite HNB in Hidx, Hlen.
  pose proof (fill_chain 6 (entry W <$> kvs) (Gen.calloc 64) i ltac:(lia)) as Hchain.
  rewrite <-HBs in Hchain. unfold Head_of in Hchain. rewrite HB in Hchain.
  unfold Gen.calloc in Hchain. rewrite lookup_replicate_2 in Hchain
    by (apply lookup_lt_Some in HB; lia).
  cbn [fmap option_fmap option_map Gen.zeroBucket Gen.Head] in Hchain.
  rewrite app_nil_r in Hchain. injection Hchain as Hchain.
  rewrite Hderef, Hchain, filter_reverse, head_reverse. unfold selected.
  rewrite list_filter_filter.
  rewrite (filter_ext_in _ (λ E, Gen.Key E = k)).
  - rewrite (filter_fmap (entry W) (λ E, Gen.Key E = k)), fmap_last.
    unfold most_recent. cbn [entry Gen.newItem Gen.Key].
    by destruct (last _).
  - intros E (kv & -> & Hkv)%list_elem_of_fmap. split; [by intros [? _]|].
    intros Hk. split; [done|]. unfold slot.
    rewrite Forall_forall in Hok. specialize (Hok kv Hkv).
    cbn [entry Gen.newItem Gen.Hash Gen.Key] in Hk |- *.
    rewrite <-(m_hash W R ok Hm _ _ Hok), Hk. exact Hidx.
Qed.

(** X5. When no key is inserted twice, and no bucket holds more than
    65535 entries, the reader is the map that was built: [find k] leads
    to [d] exactly when [(k, d)] was inserted. The table has fewer than
    2^29 entries, is emitted behind a non-empty prefix into a stream
    below 4 GiB and is read with a matching codec. *)
Theorem lookup_distinct_keys (k : K) (d : D) :
  NoDup kvs.*1 →
  ∃ t it,
    Tbl.Create (Z.to_nat off) Out' R = Some t
    ∧ Tbl.find t k None = Some it
    ∧ (Tbl.deref Out' it = Some d ↔ (k, d) ∈ kvs).
Proof.
  intros Hnd. destruct (decide (k ∈ kvs.*1)) as [Hin|Hnot].
  - apply list_elem_of_fmap in Hin as ([k0 d0] & -> & Hin). cbn [fst].
    destruct (find_hit W R ok Hm kvs Out Out' off g' Hcount Hok Hpre Hemit Hsize
                Hfit k0 d0 Hin) as (t & it & d' & Ht & Hfind & _ & Hderef & Hd').
    exists t, it. split; [done|]. split; [done|].
    assert (Tbl.Base t = Out') as HBase.
    { rewrite (create_reader W R kvs Out Out' off g' Hcount Hpre Hemit Hsize) in Ht.
      by injection Ht as <-. }
    rewrite HBase in Hderef. rewrite Hderef. split.
    + by intros [= <-].
    + intros Hd. f_equal. by eapply fst_unique.
  - destruct (find_miss W R ok Hm kvs Out Out' off g' Hcount Hok Hpre Hemit Hsize
                Hfit k Hnot) as (t & Ht & Hfind).
    exists t, Tbl.iterator_end. split; [done|]. split; [done|]. split; [done|].
    intros Hd. destruct Hnot. apply list_elem_of_fmap. by exists (k, d).
Qed.
End FindFirst.

(** [find_agrees_with_iteration] on a table with key 7 inserted twice and
    resized once. *)
Lemma find_agrees_with_iteration_witness :
  ∃ off g' Out',
    Gen.Emit (Gen.build 0 IntCodec.twice) IntCodec.prefix8 0 = Some (off, g', Out')
    ∧ ∃ t ks ds it,
        Tbl.CreateIterable (Z.to_nat off) (length IntCodec.prefix8) Out' 0 = Some t
        ∧ Tbl.keys t = Some ks ∧ Tbl.data t = Some ds
        ∧ Tbl.find (Tbl.base_type t) 7 None = Some it
        ∧ Tbl.deref Out' it = snd <$> head (filter (λ p, p.1 = 7) (zip ks ds))
        ∧ (Tbl.iterator_eq it Tbl.iterator_end = true ↔ 7 ∉ ks).
Proof.
  destruct (Gen.Emit (Gen.build 0 IntCodec.twice) IntCodec.prefix8 0)
    as [[[off g'] Out']|] eqn:He; [|vm_compute in He; discriminate].
  exists off, g', Out'. split; [reflexivity|].
  apply (find_agrees_with_iteration 0 0 IntCodec.u32 (int_matching 0)
           IntCodec.twice IntCodec.prefix8 Out' off g').
  - vm_compute. reflexivity.
  - apply Forall_forall. intros kv Hkv. apply list_elem_of_In in Hkv.
    vm_compute in Hkv. unfold IntCodec.u32.
    repeat (destruct Hkv as [<-|Hkv]; [vm_compute; repeat split; discriminate|]).
    destruct Hkv.
  - discriminate.
  - exact He.
  - vm_compute in He. injection He as <- <- <-. vm_compute. reflexivity.
  - vm_compute. reflexivity.
Defined.

(** [find_most_recent_before_resize] with key 7 inserted twice. *)
Lemma find_most_recent_before_resize_witness :
  ∃ off g' Out',
    Gen.Emit (Gen.build 0 [(7, 100); (7, 200)]) IntCodec.prefix8 0
    = Some (off, g', Out')
    ∧ ∃ t it,
        Tbl.Create (Z.to_nat off) Out' 0 = Some t
        ∧ Tbl.find t 7 None = Some it
        ∧ Tbl.deref Out' it = most_recent [(7, 100); (7, 200)] 7.
Proof.
  destruct (Gen.Emit (Gen.build 0 [(7, 100); (7, 200)]) IntCodec.prefix8 0)
    as [[[off g'] Out']|] eqn:He; [|vm_compute in He; discriminate].
  exists off, g', Out'. split; [reflexivity|].
  apply (find_most_recent_before_resize 0 0 IntCodec.u32 (int_matching 0)
           [(7, 100); (7, 200)] IntCodec.prefix8 Out' off g').
  - vm_compute. reflexivity.
  - repeat constructor; vm_compute; discriminate.
  - discriminate.
  - exact He.
  - vm_compute in He. injection He as <- <- <-. vm_compute. reflexivity.
  - vm_compute. reflexivity.
  - cbn [length]. lia.
Defined.

(** [lookup_distinct_keys] on the collision scenario. *)
Lemma lookup_distinct_keys_witness :
  ∃ off g' Out',
    Gen.Emit (Gen.build 0 [(7, 100); (71, 200)]) IntCodec.prefix8 0
    = Some (off, g', Out')
    ∧ ∃ t it,
        Tbl.Create (Z.to_nat off) Out' 0 = Some t
        ∧ Tbl.find t 71 None = Some it
        ∧ (Tbl.deref Out' it = Some 200 ↔ (71, 200) ∈ [(7, 100); (71, 200)]).
Proof.
  destruct (Gen.Emit (Gen.build 0 [(7, 100); (71, 200)]) IntCodec.prefix8 0)
    as [[[off g'] Out']|] eqn:He; [|vm_compute in He; discriminate].
  exists off, g', Out'. split; [reflexivity|].
  apply (lookup_distinct_keys 0 0 IntCodec.u32 (int_matching 0)
           [(7, 100); (71, 200)] IntCodec.prefix8 Out' off g').
  - vm_compute. reflexivity.
  - repeat constructor; vm_compute; discriminate.
  - discriminate.
  - exact He.
  - vm_compute in He. injection He as <- <- <-. vm_compute. reflexivity.
  - vm_compute. reflexivity.
  - apply (bool_decide_unpack _). vm_compute. exact I.
Defined.

(** ** When [Emit] returns, and what it leaves behind *)

Section EmitMore.
Context {I K D : Type} `{!Gen.Info I K D}.
Implicit Types (B : Gen.Bucket K D) (Bs : list (Gen.Bucket K D))
  (g : Gen.Generator K D) (Out : raw_ostream).
Variable W : I.

(** X6. On a generator filled by [insert], [Emit] fails on nothing but
    the offset-0 assert: with bytes before the payload and room below
    4 GiB it returns, the count assert never fires, the directory offset
    is not below the start offset, and the stream ends with the last
    bucket offset, [8 + 4 * NumBuckets] bytes after the directory
    offset. *)
Theorem emit_succeeds (kvs : list (K * D)) Out :
  Z.of_nat (length kvs) < 2 ^ 29 →
  Out ≠ [] →
  tell Out + Z.of_nat (length (payload_bytes W (Gen.Buckets (Gen.build W kvs))))
    + 3 + 8 + 4 * Gen.NumBuckets (Gen.build W kvs) < 2 ^ 32 →
  ∃ off g' Out',
    Gen.Emit (Gen.build W kvs) Out W = Some (off, g', Out')
    ∧ tell Out ≤ off
    ∧ tell Out' = off + 8 + 4 * Gen.NumBuckets (Gen.build W kvs).
Proof.
  intros Hn Hpre Hroom.
  destruct (build_ok W kvs Hn) as (((e & He & HNB) & [Hlen Hcells] & _) & _).
  assert (0 < 2 ^ e) by lia.
  assert (Hready : emit_ready W (Gen.build W kvs) Out = true).
  { unfold emit_ready. rewrite !andb_true_iff. split; [split|].
    - apply Z.ltb_lt. unfold tell. destruct Out; [done|cbn [length]; lia].
    - apply Z.ltb_lt. rewrite Hlen. lia.
    - apply forallb_forall. intros B HB%list_elem_of_In.
      apply list_elem_of_lookup in HB as [i HB].
      destruct (Hcells i B HB) as (_ & Hcnt & _).
      destruct (Gen.Head B); [done|]. rewrite Hcnt. cbn [length].
      apply negb_true_iff, Z.eqb_neq. lia. }
  destruct (Emit_total W _ Out Hready) as (off & g' & Out' & Hemit & Hsize).
  exists off, g', Out'. split; [done|].
  destruct (emitted_layout W _ _ _ _ _ Hemit Hsize) as (pad & HOut & _ & _ & Hoff & _).
  destruct (Emit_spec W _ _ _ _ _ Hemit) as (Hpay & _).
  destruct (emit_payload_spec W _ _ _ _ Hpay) as (_ & Hlen' & _).
  split.
  - rewrite Hoff. unfold tell. rewrite !length_app. lia.
  - rewrite HOut at 1. rewrite Hoff. unfold tell, directory_bytes.
    rewrite !length_app, !length_le_bytes, length_cells, Hlen', Hlen. lia.
Qed.

Lemma emit_bucket_again B Out B' Out' Out2 :
  Gen.emit_bucket W B Out = Some (B', Out') →
  Gen.emit_bucket W B' Out2 = Gen.emit_bucket W B Out2.
Proof.
  unfold Gen.emit_bucket. destruct (Gen.Head B) as [|E Es] eqn:HB.
  - intros [= <- _]. by rewrite HB.
  - destruct (wrap32 (tell Out) =? 0); [done|].
    destruct (Gen.Length B =? 0) eqn:HL; [done|]. intros [= <- _].
    cbn [Gen.Head Gen.Length]. by rewrite HL.
Qed.

Lemma emit_payload_again Bs : ∀ Out Bs' Out' Out2,
  Gen.emit_payload W Bs Out = Some (Bs', Out') →
  Gen.emit_payload W Bs' Out2 = Gen.emit_payload W Bs Out2.
Proof.
  induction Bs as [|B Bs IH]; intros Out Bs' Out' Out2.
  { by intros [= <- _]. }
  cbn [Gen.emit_payload].
  destruct (Gen.emit_bucket W B Out) as [[B1 Out1]|] eqn:H1; [|done].
  cbn [mbind option_bind].
  destruct (Gen.emit_payload W Bs Out1) as [[Bs1 Out3]|] eqn:H2; [|done].
  cbn [mbind option_bind]. intros [= <- _].
  cbn [Gen.emit_payload]. rewrite (emit_bucket_again _ _ _ _ Out2 H1).
  destruct (Gen.emit_bucket W B Out2) as [[B2 Out4]|]; [|done].
  cbn [mbind option_bind]. by rewrite (IH _ _ _ Out4 H2).
Qed.

(** X7. [Emit] may be repeated: the offsets a first [Emit] stored in the
    buckets do not show in a second one, which writes the same bytes and
    returns the same offset as a first [Emit] to that stream would. *)
Theorem emit_again g Out (off : Z) g' (Out' Out2 : raw_ostream) :
  Gen.Emit g Out W = Some (off, g', Out') →
  Gen.Emit g' Out2 W = Gen.Emit g Out2 W.
Proof.
  intros Hemit.
  destruct (Emit_spec W _ _ _ _ _ Hemit) as (Hpay & HNB & HNE & _).
  unfold Gen.Emit. rewrite (emit_payload_again _ _ _ _ Out2 Hpay), HNB, HNE. done.
Qed.
End EmitMore.

(** [emit_succeeds] on the single-insert scenario. *)
Lemma emit_succeeds_witness :
  ∃ off g' Out',
    Gen.Emit (Gen.build 0 [(7, 42)]) IntCodec.prefix8 0 = Some (off, g', Out')
    ∧ tell IntCodec.prefix8 ≤ off
    ∧ tell Out' = off + 8 + 4 * Gen.NumBuckets (Gen.build 0 [(7, 42)]).
Proof.
  apply (emit_succeeds 0 [(7, 42)] IntCodec.prefix8).
  - vm_compute. reflexivity.
  - discriminate.
  - vm_compute. reflexivity.
Defined.

(** [emit_again]: the single-insert table emitted after 8 bytes and then
    again after 3 bytes. *)
Lemma emit_again_witness :
  ∃ off g' Out',
    Gen.Emit (Gen.build 0 [(7, 42)]) IntCodec.prefix8 0 = Some (off, g', Out')
    ∧ Gen.Emit g' [1; 2; 3] 0 = Gen.Emit (Gen.build 0 [(7, 42)]) [1; 2; 3] 0.
Proof.
  destruct (Gen.Emit (Gen.build 0 [(7, 42)]) IntCodec.prefix8 0)
    as [[[off g'] Out']|] eqn:He; [|vm_compute in He; discriminate].
  exists off, g', Out'. split; [reflexivity|].
  apply (emit_again 0 (Gen.build 0 [(7, 42)]) IntCodec.prefix8 off g' Out' [1; 2; 3]).
  exact He.
Defined.

(** ** The directory cell by cell *)

Lemma wrap16_fits v : 0 ≤ v < 2 ^ 16 → wrap16 v = v.
Proof. intros. unfold wrap16. by rewrite Z.mod_small. Qed.

Lemma filter_all {A} (P : A → Prop) `{!∀ x, Decision (P x)} (l : list A) :
  (∀ x, x ∈ l → P x) → filter P l = l.
Proof.
  induction l as [|x l IH]; intros Hall; [done|].
  rewrite filter_cons_True by (apply Hall; left).
  f_equal. apply IH. intros y Hy. apply Hall. by right.
Qed.

Section Cells.
Context {I J K D : Type} `{!Gen.Info I K D}.
Implicit Types (E : Gen.Item K D) (B : Gen.Bucket K D).
Variables (W : I) (R : J).
Variables (kvs : list (K * D)) (Out Out' : raw_ostream) (off : Z)
          (g' : Gen.Generator K D).
Hypothesis Hcount : Z.of_nat (length kvs) < 2 ^ 29.

(** A chain holds the entries its index selects. *)
Lemma chain_is_selected (i : nat) B :
  Gen.Buckets (Gen.build W kvs) !! i = Some B →
  Gen.Head B
  ≡ₚ selected (Gen.NumBuckets (Gen.build W kvs)) i (entry W <$> kvs).
Proof.
  intros HB.
  destruct (build_ok W kvs Hcount) as ((_ & [_ Hcells] & _) & Hperm & _).
  unfold selected. rewrite <-Hperm.
  rewrite (filter_items _ _ i B HB).
  - rewrite filter_all; [done|]. intros E HE.
    destruct (Hcells i B HB) as (_ & _ & Hall).
    rewrite Forall_forall in Hall. by destruct (Hall E HE).
  - intros i' B' E HB' HE Hslot.
    destruct (Hcells i' B' HB') as (_ & _ & Hall).
    rewrite Forall_forall in Hall. destruct (Hall E HE) as [_ Hi'].
    unfold slot in Hslot. lia.
Qed.

Hypothesis Hemit : Gen.Emit (Gen.build W kvs) Out W = Some (off, g', Out').
Hypothesis Hsize : tell Out' < 2 ^ 32.

(** X8. Cell [i] of the emitted directory is 0 exactly when no inserted
    key hashes to [i]; otherwise it is an offset inside the payload, at
    which a block starts whose 16-bit length is the number of [insert]
    calls whose key hashes to [i]. *)
Theorem directory_cell_counts (i : nat) :
  lengths_fit (Gen.build W kvs) = true →
  Z.of_nat i < Gen.NumBuckets (Gen.build W kvs) →
  let c := Z.of_nat (length (filter
             (λ kv, Z.land (wrap32 (Gen.ComputeHash W kv.1))
                           (Gen.NumBuckets (Gen.build W kvs) - 1) = Z.of_nat i)
             kvs)) in
  ∃ o,
    readNext 4 Out' (Z.to_nat off + 8 + 4 * i)%nat
    = Some (o, (Z.to_nat off + 8 + 4 * i + 4)%nat)
    ∧ (c = 0 → o = 0)
    ∧ (c ≠ 0 →
       tell Out ≤ o < off
       ∧ readNext 2 Out' (Z.to_nat o) = Some (c, (Z.to_nat o + 2)%nat)).
Proof.
  intros Hfit Hi c.
  destruct (build_ok W kvs Hcount) as ((_ & [Hlen Hcells] & _) & _).
  destruct (lookup_lt_is_Some_2 (Gen.Buckets (Gen.build W kvs)) i) as [B HB];
    [lia|].
  assert (Hc : Z.of_nat (length (Gen.Head B)) = c).
  { subst c. rewrite (chain_is_selected i B HB). unfold selected.
    rewrite (filter_fmap (entry W)), length_fmap. done. }
  destruct (Hcells i B HB) as (Hoff0 & Hcnt & _).
  destruct (Gen.Head B) as [|E Es] eqn:HhB.
  - destruct (empty_cell W _ _ _ _ _ Hemit i B HB HhB) as (B' & HB' & HoffB).
    exists 0. rewrite (directory_cell W _ _ _ _ _ Hemit Hsize i B' HB'), HoffB, Hoff0.
    split; [done|]. split; [done|]. cbn [length] in Hc. lia.
  - destruct (length_field W _ _ _ _ _ i B Hemit Hsize HB ltac:(by rewrite HhB))
      as (B' & HB' & HoffB & Hread).
    destruct (emitted_layout W _ _ _ _ _ Hemit Hsize) as (pad & HOut & _ & _ & Hoffd & _).
    assert (Hsplit : payload_bytes W (Gen.Buckets (Gen.build W kvs))
                     = payload_bytes W (take i (Gen.Buckets (Gen.build W kvs)))
                         ++ block_bytes W B
                         ++ payload_bytes W (drop (S i) (Gen.Buckets (Gen.build W kvs)))).
    { rewrite <-(take_drop_middle _ _ _ HB) at 1.
      unfold payload_bytes. by rewrite bind_app, bind_cons. }
    assert (Hblock : (2 ≤ length (block_bytes W B))%nat).
    { unfold block_bytes. rewrite HhB, length_app, length_le_bytes. lia. }
    assert (Hrange : tell Out ≤ Gen.Off B' < off).
    { rewrite HoffB, Hoffd, Hsplit. unfold tell. rewrite !length_app. lia. }
    assert (off ≤ tell Out').
    { rewrite HOut at 1. rewrite Hoffd. unfold tell. rewrite !length_app. lia. }
    exists (Gen.Off B').
    rewrite (directory_cell W _ _ _ _ _ Hemit Hsize i B' HB').
    rewrite wrap32_small by (unfold tell in *; lia).
    split; [done|]. split; [cbn [length] in Hc; lia|].
    intros _. split; [done|].
    rewrite Hread, wrap16_fits, Hcnt, Hc; [done|].
    pose proof (fit_lookup _ i B Hfit HB). rewrite Hcnt in *. lia.
Qed.

(** X9. [isEmpty] on the reader [Create] makes over the emitted bytes is
    true exactly when nothing was inserted; its [NumEntries] is the
    number of [insert] calls and its [NumBuckets] the generator's. *)
Theorem reader_is_empty :
  Out ≠ [] →
  ∃ t,
    Tbl.Create (Z.to_nat off) Out' R = Some t
    ∧ Tbl.NumEntries t = Z.of_nat (length kvs)
    ∧ Tbl.NumBuckets t = Gen.NumBuckets (Gen.build W kvs)
    ∧ (Tbl.isEmpty t = true ↔ kvs = []).
Proof.
  intros Hpre. eexists.
  rewrite (create_reader W R kvs Out Out' off g' Hcount Hpre Hemit Hsize).
  split; [done|]. split; [done|]. split; [done|].
  unfold Tbl.isEmpty. cbn [Tbl.NumEntries]. rewrite Z.eqb_eq.
  destruct kvs; cbn [length]; split; (done || lia).
Qed.
End Cells.

(** [directory_cell_counts] on the collision scenario: cell 7 leads to a
    block of two entries. *)
Lemma directory_cell_counts_witness :
  ∃ off g' Out',
    Gen.Emit (Gen.build 0 [(7, 100); (71, 200)]) IntCodec.prefix8 0
    = Some (off, g', Out')
    ∧ let c := Z.of_nat (length (filter
                 (λ kv : Z * Z,
                    Z.land (wrap32 (Gen.ComputeHash 0 kv.1))
                      (Gen.NumBuckets (Gen.build 0 [(7, 100); (71, 200)]) - 1)
                    = Z.of_nat 7)
                 [(7, 100); (71, 200)])) in
      ∃ o,
        readNext 4 Out' (Z.to_nat off + 8 + 4 * 7)%nat
        = Some (o, (Z.to_nat off + 8 + 4 * 7 + 4)%nat)
        ∧ (c = 0 → o = 0)
        ∧ (c ≠ 0 →
           tell IntCodec.prefix8 ≤ o < off
           ∧ readNext 2 Out' (Z.to_nat o) = Some (c, (Z.to_nat o + 2)%nat)).
Proof.
  destruct (Gen.Emit (Gen.build 0 [(7, 100); (71, 200)]) IntCodec.prefix8 0)
    as [[[off g'] Out']|] eqn:He; [|vm_compute in He; discriminate].
  exists off, g', Out'. split; [reflexivity|].
  apply (directory_cell_counts 0 [(7, 100); (71, 200)] IntCodec.prefix8 Out' off g').
  - vm_compute. reflexivity.
  - exact He.
  - vm_compute in He. injection He as <- <- <-. vm_compute. reflexivity.
  - vm_compute. reflexivity.
  - vm_compute. reflexivity.
Defined.

(** [reader_is_empty] on the single-insert scenario. *)
Lemma reader_is_empty_witness :
  ∃ off g' Out',
    Gen.Emit (Gen.build 0 [(7, 42)]) IntCodec.prefix8 0 = Some (off, g', Out')
    ∧ ∃ t,
        Tbl.Create (Z.to_nat off) Out' 0 = Some t
        ∧ Tbl.NumEntries t = Z.of_nat (length [(7, 42)])
        ∧ Tbl.NumBuckets t = Gen.NumBuckets (Gen.build 0 [(7, 42)])
        ∧ (Tbl.isEmpty t = true ↔ [(7, 42)] = []).
Proof.
  destruct (Gen.Emit (Gen.build 0 [(7, 42)]) IntCodec.prefix8 0)
    as [[[off g'] Out']|] eqn:He; [|vm_compute in He; discriminate].
  exists off, g', Out'. split; [reflexivity|].
  apply (reader_is_empty 0 0 [(7, 42)] IntCodec.prefix8 Out' off g').
  - vm_compute. reflexivity.
  - exact He.
  - vm_compute in He. injection He as <- <- <-. vm_compute. reflexivity.
  - discriminate.
Defined.

(** ** A bucket too long for its length field *)

Section Overlong.
Context {I J K IK D : Type} `{!Gen.Info I K D} `{!Tbl.Info J IK K D}.
Variables (W : I) (R : J).
Variables (kvs : list (K * D)) (Out Out' : raw_ostream) (off : Z)
          (g' : Gen.Generator K D).
Hypothesis Hcount : Z.of_nat (length kvs) < 2 ^ 29.
Hypothesis Hpre : Out ≠ [].
Hypothesis Hemit : Gen.Emit (Gen.build W kvs) Out W = Some (off, g', Out').
Hypothesis Hsize : tell Out' < 2 ^ 32.

(** X10. [find] walks as many entries as the 16-bit length field says:
    when the count of the bucket a key hashes to is a multiple of 65536,
    the field reads 0 and [find] returns the end iterator for that key,
    inserted or not. *)
Theorem find_misses_overlong_bucket (k : K) :
  let h := wrap32 (Tbl.ComputeHash R (Tbl.GetInternalKey R k)) in
  let i := Z.to_nat (Z.land h (Gen.NumBuckets (Gen.build W kvs) - 1)) in
  (λ B, Gen.Length B mod 65536) <$> Gen.Buckets (Gen.build W kvs) !! i = Some 0 →
  ∃ t,
    Tbl.Create (Z.to_nat off) Out' R = Some t
    ∧ Tbl.find t k None = Some Tbl.iterator_end.
Proof.
  intros h i Hlong. eexists.
  rewrite (create_reader W R kvs Out Out' off g' Hcount Hpre Hemit Hsize).
  split; [done|].
  destruct (build_ok W kvs Hcount) as (((e & He & HNB) & [Hlen Hcells] & _) & _).
  assert (H30 : 2 ^ e ≤ 2 ^ 30) by (apply Z.pow_le_mono_r; lia).
  assert (H6 : 2 ^ 6 ≤ 2 ^ e) by (apply Z.pow_le_mono_r; lia).
  destruct (Gen.Buckets (Gen.build W kvs) !! i) as [B|] eqn:HB; [|done].
  cbn [fmap option_fmap option_map] in Hlong. injection Hlong as Hlong.
  unfold Tbl.find, Tbl.find_probe.
  cbn [snd Tbl.NumBuckets Tbl.Buckets Tbl.Base Tbl.InfoObj].
  fold h. rewrite (wrap32_small (_ - 1)) by (rewrite HNB; lia). fold i.
  replace (Z.to_nat off + 4 + 4 + 4 * i)%nat with (Z.to_nat off + 8 + 4 * i)%nat by lia.
  destruct (Hcells i B HB) as (Hoff0 & _ & _).
  destruct (Gen.Head B) as [|E Es] eqn:HhB.
  - destruct (empty_cell W _ _ _ _ _ Hemit i B HB HhB) as (B' & HB' & HoffB).
    rewrite (directory_cell W _ _ _ _ _ Hemit Hsize i B' HB'), HoffB, Hoff0. done.
  - destruct (block_at W _ _ _ _ _ Hemit Hsize i B HB ltac:(by rewrite HhB))
      as (B' & pre & post & HB' & HoffB & Hnz & _ & HOut).
    rewrite (directory_cell W _ _ _ _ _ Hemit Hsize i B' HB').
    cbn [mbind option_bind].
    assert (Z.of_nat (length pre) < 2 ^ 32).
    { revert Hsize. rewrite HOut. unfold tell. rewrite length_app. lia. }
    rewrite wrap32_small by lia.
    destruct (Gen.Off B' =? 0) eqn:Hz; [apply Z.eqb_eq in Hz; done|].
    rewrite HoffB, Nat2Z.id.
    rewrite (readNext_at 2 Out' (length pre) pre (Gen.Length B)
               (chain_bytes W (Gen.Head B) ++ post));
      [|exact HOut|done].
    cbn [mbind option_bind]. change (256 ^ Z.of_nat 2) with 65536.
    rewrite Hlong. done.
Qed.
End Overlong.

(** [find_misses_overlong_bucket] after 65536 inserts of key 0: key 0 is
    not found. *)
Lemma find_misses_overlong_bucket_witness :
  ∃ off g' Out',
    Gen.Emit (Gen.build 0 IntCodec.crowd) IntCodec.prefix8 0 = Some (off, g', Out')
    ∧ ∃ t,
        Tbl.Create (Z.to_nat off) Out' 0 = Some t
        ∧ Tbl.find t 0 None = Some Tbl.iterator_end.
Proof.
  assert (Hready : emit_ready 0 (Gen.build 0 IntCodec.crowd) IntCodec.prefix8 = true)
    by (vm_compute; reflexivity).
  destruct (Emit_total 0 _ IntCodec.prefix8 Hready) as (off & g' & Out' & He & Hsize).
  exists off, g', Out'. split; [exact He|].
  apply (find_misses_overlong_bucket 0 0 IntCodec.crowd IntCodec.prefix8 Out' off g').
  - vm_compute. reflexivity.
  - discriminate.
  - exact He.
  - exact Hsize.
  - vm_compute. reflexivity.
Defined.

(** ** The order of iteration *)

Section Order.
Context {I J K IK D : Type} `{!Gen.Info I K D} `{!Tbl.Info J IK K D}.
Implicit Types (E : Gen.Item K D) (B : Gen.Bucket K D)
  (Bs : list (Gen.Bucket K D)).
Variables (W : I) (R : J) (ok : K → D → Prop).
Hypothesis Hm : matching W R ok.

Lemma constant_sorted (v : Z) (l : list Z) :
  Forall (λ s, s = v) l → StronglySorted Z.le l.
Proof.
  induction 1 as [|s l -> Hall IH]; constructor; [done|].
  eapply Forall_impl; [exact Hall|]. intros s ->. done.
Qed.

(** The bucket indices of the entries, in payload order, never go down. *)
Lemma slots_sorted (Size : Z) Bs : ∀ base : Z,
  (∀ (j : nat) B E, Bs !! j = Some B → E ∈ Gen.Head B →
     slot Size E = base + Z.of_nat j) →
  StronglySorted Z.le (slot Size <$> items Bs)
  ∧ Forall (λ s, base ≤ s) (slot Size <$> items Bs).
Proof.
  induction Bs as [|B Bs IH]; intros base Hslots.
  { split; constructor. }
  rewrite items_cons, fmap_app.
  destruct (IH (base + 1)) as [Hsorted Hlow].
  { intros j B' E HB' HE. rewrite (Hslots (S j) B' E HB' HE). lia. }
  assert (Hhead : Forall (λ s, s = base) (slot Size <$> Gen.Head B)).
  { apply Forall_fmap, Forall_forall. intros E HE. cbn.
    rewrite (Hslots 0%nat B E eq_refl HE). lia. }
  rewrite Forall_forall in Hlow, Hhead. split.
  - apply StronglySorted_app_2; [|by apply (constant_sorted base), Forall_forall|done].
    intros s1 s2 H1 H2. rewrite (Hhead s1 H1). specialize (Hlow s2 H2). lia.
  - apply Forall_app. split; apply Forall_forall.
    + intros s Hs. rewrite (Hhead s Hs). lia.
    + intros s Hs. specialize (Hlow s Hs). lia.
Qed.

Variables (kvs : list (K * D)) (Out Out' : raw_ostream) (off : Z)
          (g' : Gen.Generator K D).
Hypothesis Hcount : Z.of_nat (length kvs) < 2 ^ 29.
Hypothesis Hok : Forall (λ kv, ok kv.1 kv.2) kvs.
Hypothesis Hpre : Out ≠ [].
Hypothesis Hemit : Gen.Emit (Gen.build W kvs) Out W = Some (off, g', Out').
Hypothesis Hsize : tell Out' < 2 ^ 32.
Hypothesis Hfit : lengths_fit (Gen.build W kvs) = true.

(** X11. On a table of fewer than 2^29 inserts in which no bucket holds
    more than 65535 entries, emitted behind a non-empty prefix into a
    stream below 4 GiB and read with a matching codec, the iterators
    walk the buckets in index order: along the keys the key iterator
    yields, the bucket index [find] would probe for the key never goes
    down. *)
Theorem iteration_in_bucket_order :
  ∃ t ks,
    Tbl.CreateIterable (Z.to_nat off) (length Out) Out' R = Some t
    ∧ Tbl.keys t = Some ks
    ∧ StronglySorted Z.le
        ((λ k, (Tbl.find_probe (Tbl.base_type t) k None).1) <$> ks).
Proof.
  destruct (iterate_all W R ok Hm kvs Out Out' off g' Hcount Hok Hpre Hemit Hsize Hfit)
    as (t & Ht & _ & Hks & _).
  exists t, (Gen.Key <$> items (Gen.Buckets (Gen.build W kvs))).
  split; [done|]. split; [done|].
  unfold Tbl.CreateIterable in Ht.
  rewrite (create_reader W R kvs Out Out' off g' Hcount Hpre Hemit Hsize) in Ht.
  cbn [mbind option_bind] in Ht. injection Ht as <-.
  cbn [Tbl.base_type]. unfold Tbl.find_probe.
  cbn [fst Tbl.InfoObj Tbl.NumBuckets].
  destruct (build_ok W kvs Hcount) as (((e & He & HNB) & [_ Hcells] & _) & _).
  assert (H30 : 2 ^ e ≤ 2 ^ 30) by (apply Z.pow_le_mono_r; lia).
  assert (H6 : 2 ^ 6 ≤ 2 ^ e) by (apply Z.pow_le_mono_r; lia).
  rewrite (wrap32_small (_ - 1)) by lia.
  rewrite <-list_fmap_compose.
  rewrite (list_fmap_ext _ (slot (Gen.NumBuckets (Gen.build W kvs)))).
  - apply (slots_sorted _ _ 0). intros j B E HB HE.
    destruct (Hcells j B HB) as (_ & _ & Hall).
    rewrite Forall_forall in Hall. destruct (Hall E HE) as [_ Hj].
    unfold slot. lia.
  - intros j E HE. cbn. unfold slot.
    destruct (built_items W ok kvs Hcount Hok E) as (_ & _ & _ & [HokE ->]).
    { by eapply list_elem_of_lookup_2. }
    by rewrite (m_hash W R ok Hm _ _ HokE).
Qed.
End Order.

(** [iteration_in_bucket_order] on keys inserted in descending order. *)
Lemma iteration_in_bucket_order_witness :
  ∃ off g' Out',
    Gen.Emit (Gen.build 0 [(9, 1); (71, 2); (7, 3)]) IntCodec.prefix8 0
    = Some (off, g', Out')
    ∧ ∃ t ks,
        Tbl.CreateIterable (Z.to_nat off) (length IntCodec.prefix8) Out' 0 = Some t
        ∧ Tbl.keys t = Some ks
        ∧ StronglySorted Z.le
            ((λ k, (Tbl.find_probe (Tbl.base_type t) k None).1) <$> ks).
Proof.
  destruct (Gen.Emit (Gen.build 0 [(9, 1); (71, 2); (7, 3)]) IntCodec.prefix8 0)
    as [[[off g'] Out']|] eqn:He; [|vm_compute in He; discriminate].
  exists off, g', Out'. split; [reflexivity|].
  apply (iteration_in_bucket_order 0 0 IntCodec.u32 (int_matching 0)
           [(9, 1); (71, 2); (7, 3)] IntCodec.prefix8 Out' off g').
  - vm_compute. reflexivity.
  - repeat constructor; vm_compute; discriminate.
  - discriminate.
  - exact He.
  - vm_compute in He. injection He as <- <- <-. vm_compute. reflexivity.
  - vm_compute. reflexivity.
Defined.

Example iteration_order :
  (t ← IntCodec.roundtrip [(9, 1); (71, 2); (7, 3)] IntCodec.prefix8; Tbl.keys t)
  = Some [7; 71; 9].
Proof. vm_compute. reflexivity. Qed.
